(** * PyTarot: the shuffle / deal / hit-test / export core of pytarot.py

    A shallow embedding of the data and algorithms of [src/pytarot.py]
    (classes [TrCard], [TrDeck], [TrSpread] and the non-GUI part of
    [WinTr]), followed by the properties the specification states
    about them.

    Modelling conventions.
    - Python objects of class [TrCard] live in an object store (a list
      of card records); a reference is an index into the store. Decks
      and spreads are Python lists of references, so that two lists
      holding the same card share it, as in the program.
    - Methods that return nothing become state transformers returning an
      [outcome]: normal completion or the exception that was raised,
      together with the state reached at that point (mutations made
      before an exception stay made).
    - Numbers of the canvas geometry are Python ints and floats; they
      are modelled as exact rationals. On the shipped spread catalogue
      (multiples of one half, times 240 or 150) float arithmetic is
      exact, so nothing is lost.
    - Python's [random] module is not part of the repository: it is
      taken as an interface ([RandomSource]) with the one law the code
      relies on.
    - Tk callbacks are the transitions of the session; [reachable]
      collects the states they lead to, and [reachable_invariants]
      shows that the side conditions of the properties below
      ([deck_wf], [spread_placed]) hold in all of them.
    - A callback runs to its end before the next one starts, except
      where it calls [update()] itself. [show_spread] does so at the
      head of every iteration of its loop, which lets Tk run other
      callbacks in the middle of a deal: [show_spread_during] takes
      what they do as a parameter, [show_spread] is the deal during
      which none runs, and the transitions of [reachable] are such
      deals. ([popup_shuffle] calls [update()] once, before it
      shuffles; it is modelled with no event pending at that point.) *)

From Stdlib Require Import QArith Ascii Lqa.
From stdpp Require Import base option list strings pretty gmap.

Local Open Scope string_scope.
Local Open Scope list_scope.
Local Open Scope nat_scope.

(** ** Exceptions and outcomes *)

Inductive exn : Type :=
  | IndexError
  | KeyError (key : string)
  | NameError (name : string)
  | TypeError
  | OSError.

Inductive outcome : Type :=
  | Done
  | Raised (e : exn).

(** [for i in range(...)]: run [body] on the indices in order, stopping
    at the first exception. *)
Fixpoint for_each {S : Type} (body : nat → S → outcome * S)
    (range : list nat) (s : S) : outcome * S :=
  match range with
  | [] => (Done, s)
  | i :: range' =>
      match body i s with
      | (Done, s') => for_each body range' s'
      | (Raised e, s') => (Raised e, s')
      end
  end.

(** ** Configuration constants (module level of pytarot.py) *)

(** One position of a spread: (column units, row units, label). *)
Abbreviation PosEntry := (Q * Q * string)%type (only parsing).

Definition SPREAD_DEFN : gmap string (list PosEntry) :=
  list_to_map [
    ("3 Card Simple Quick",
      [ (0, 3#2, "1. Past");
        (3#2, 3#2, "2. Present");
        (3, 3#2, "3. Future") ]%Q);
    ("10 Card Celtic Cross",
      [ (1, 1, "1. Situation's heart, atmosphere");
        (1, 2, "2. Crossing challenges");
        (1, 0, "3. Crowning ideal or goal");
        (1, 3, "4. Root foundation");
        (0, 3#2, "5. Past influence");
        (2, 3#2, "6. Near future");
        (3, 3, "7. Attitude facing concerns");
        (3, 2, "8. Environment's effects");
        (3, 1, "9. Deep desires, fears");
        (3, 0, "10. Culmination, outcome") ]%Q) ].

Definition SPREAD_OPTION : list string :=
  ["3 Card Simple Quick"; "10 Card Celtic Cross"].
Definition SPREAD_DEFAULT : string := "10 Card Celtic Cross".

Definition MIN_REV : nat := 0.
Definition MAX_REV : nat := 39.
Definition REV_WORD : string := "Reversed".

(** [CELL_SZ = [240, 150]], [CELL_PAD = 10]. *)
Definition CELL_W : Q := 240.
Definition CELL_H : Q := 150.
Definition CELL_PAD : Q := 10.

(** ** class TrCard *)

Record TrCard : Type := mkTrCard {
  card_name : string;
  card_code : string;
  keywd_up : string;
  keywd_rev : string;
  is_rev : bool;
  min_coord : option Q * option Q;
  max_coord : option Q * option Q;
  rdg_note : string
}.

(** [TrCard.__init__]: upright, unplaced, no note. *)
Definition TrCard_init (cnm ccd kwu kwr : string) : TrCard :=
  {| card_name := cnm; card_code := ccd; keywd_up := kwu; keywd_rev := kwr;
     is_rev := false;
     min_coord := (None, None); max_coord := (None, None);
     rdg_note := "" |}.

#[global] Instance TrCard_inhabited : Inhabited TrCard :=
  populate (TrCard_init "" "" "" "").

(** [TrCard.__str__] *)
Definition TrCard_str (c : TrCard) : string :=
  if is_rev c then card_name c +:+ " " +:+ REV_WORD else card_name c.

Definition set_is_rev (b : bool) (c : TrCard) : TrCard :=
  {| card_name := card_name c; card_code := card_code c;
     keywd_up := keywd_up c; keywd_rev := keywd_rev c;
     is_rev := b;
     min_coord := min_coord c; max_coord := max_coord c;
     rdg_note := rdg_note c |}.

Definition set_coords (mn mx : option Q * option Q) (c : TrCard) : TrCard :=
  {| card_name := card_name c; card_code := card_code c;
     keywd_up := keywd_up c; keywd_rev := keywd_rev c;
     is_rev := is_rev c;
     min_coord := mn; max_coord := mx;
     rdg_note := rdg_note c |}.

Definition set_rdg_note (t : string) (c : TrCard) : TrCard :=
  {| card_name := card_name c; card_code := card_code c;
     keywd_up := keywd_up c; keywd_rev := keywd_rev c;
     is_rev := is_rev c;
     min_coord := min_coord c; max_coord := max_coord c;
     rdg_note := t |}.

(** [c.is_rev = not c.is_rev] *)
Definition toggle_rev (c : TrCard) : TrCard := set_is_rev (negb (is_rev c)) c.

(** The immutable identity of a card. *)
Definition card_ident (c : TrCard) : string * string * string * string :=
  (card_name c, card_code c, keywd_up c, keywd_rev c).

(** ** The object store *)

Abbreviation loc := nat (only parsing).
Abbreviation store := (list TrCard) (only parsing).

(** The card values a list of references points to, in order. *)
Definition deck_view (h : store) (d : list loc) : list TrCard :=
  (λ l, h !!! l) <$> d.

(** The invariant of a deck built by [fill_deck]: every reference is
    live, and no card object occurs twice. *)
Definition deck_wf (h : store) (d : list loc) : Prop :=
  NoDup d ∧ Forall (λ l, l < length h) d.

#[global] Instance deck_wf_dec h d : Decision (deck_wf h d).
Proof. unfold deck_wf. apply _. Defined.

Definition reversed_count (h : store) (d : list loc) : nat :=
  length (filter (λ c, is_rev c = true) (deck_view h d)).

(** ** class TrDeck: loading *)

(** One row of the card file: Card, Code, Keyword, Reversed. *)
Abbreviation CardRow :=
  (string * string * string * string)%type (only parsing).

(** [TrDeck.fill_deck] on rows that give a string for each of the four
    columns: one fresh card object per row, appended in file order.
    The loop on the dicts [csv.DictReader] yields, where a column can
    be missing, is [fill_deck_csv] below. *)
Definition fill_deck (rows : list CardRow) (hd : store * list loc)
    : store * list loc :=
  foldl (λ '(h, d) '(cnm, ccd, kwu, kwr),
           (h ++ [TrCard_init cnm ccd kwu kwr], d ++ [length h]))
        hd rows.

(** ** The random module, as an interface

    [seed_rng] is [random.seed(str)], [randbelow n] is
    [Random._randbelow(n)], which returns an integer in [0, n). *)
Class RandomSource : Type := {
  rng : Type;
  seed_rng : string → rng;
  randbelow : nat → rng → nat * rng;
  randbelow_lt : ∀ n g, 0 < n → (randbelow n g).1 < n
}.

Section random.
Context `{RandomSource}.

(** [random.randint(a, b)] is [a + _randbelow(b - a + 1)]. *)
Definition randint (a b : nat) (g : rng) : nat * rng :=
  let '(r, g') := randbelow (b - a + 1) g in (a + r, g').

(** [x[i], x[j] = x[j], x[i]]. Both indices are in range whenever
    [random.shuffle] calls it ([j ≤ i < len(x)]); out of range the
    list is returned as it is. *)
Definition swap {A} (i j : nat) (x : list A) : list A :=
  match x !! i, x !! j with
  | Some a, Some b => <[j:=a]> (<[i:=b]> x)
  | _, _ => x
  end.

(** The loop of [random.shuffle]:
    [for i in reversed(range(1, len(x))): j = randbelow(i + 1); swap]. *)
Fixpoint shuffle_loop {A} (i : nat) (x : list A) (g : rng) : list A * rng :=
  match i with
  | 0 => (x, g)
  | S i' =>
      let '(j, g') := randbelow (i + 1) g in
      shuffle_loop i' (swap i j x) g'
  end.

Definition random_shuffle {A} (x : list A) (g : rng) : list A * rng :=
  shuffle_loop (length x - 1) x g.

(** Body of [for i_card in range(n_rev)]. *)
Definition toggle_at (d : list loc) (i : nat) (h : store) : outcome * store :=
  match d !! i with
  | None => (Raised IndexError, h)
  | Some l => (Done, alter toggle_rev l h)
  end.

(** ** class TrDeck: shuffling *)

(** [TrDeck.shuffle(qry_hash)]. The module-level generator is reseeded
    on entry, so its earlier state plays no role. *)
Definition TrDeck_shuffle (qry_hash : string) (hd : store * list loc)
    : outcome * (store * list loc) :=
  let '(h, d) := hd in
  let g0 := seed_rng qry_hash in
  let '(n_rev, g1) := randint MIN_REV MAX_REV g0 in
  let '(d1, g2) := random_shuffle d g1 in
  match for_each (toggle_at d1) (seq 0 n_rev) h with
  | (Raised e, h') => (Raised e, (h', d1))
  | (Done, h') =>
      let '(d2, _) := random_shuffle d1 g2 in
      (Done, (h', d2))
  end.
End random.

(** ** class WinTr: the session state behind the window

    Only the attributes the core reads or writes are kept. The canvas
    and the widgets are not modelled, except for two observable facts:
    whether the "Save & Close" button is enabled, and the sequence of
    note popups opened (by spread index). *)

Record WinTr : Type := mkWinTr {
  cards : store;              (* the TrCard objects of the session *)
  tr_deck : list loc;         (* self.tr_deck.deck *)
  tr_qry : option string;     (* askstring returns None when cancelled *)
  tr_datetime : string;
  tr_sprd : list loc;         (* self.tr_sprd.deck *)
  sprd_name : string;         (* self.tr_sprd.sprd_name *)
  at_card_ix : option nat;
  strv_sprd : string;
  strv_note : string;
  btn_quit_enabled : bool;
  note_popups : list nat
}.

Definition with_cards (h : store) (w : WinTr) : WinTr :=
  mkWinTr h (tr_deck w) (tr_qry w) (tr_datetime w) (tr_sprd w) (sprd_name w)
    (at_card_ix w) (strv_sprd w) (strv_note w) (btn_quit_enabled w)
    (note_popups w).
Definition with_tr_deck (d : list loc) (w : WinTr) : WinTr :=
  mkWinTr (cards w) d (tr_qry w) (tr_datetime w) (tr_sprd w) (sprd_name w)
    (at_card_ix w) (strv_sprd w) (strv_note w) (btn_quit_enabled w)
    (note_popups w).
Definition with_tr_qry (q : option string) (w : WinTr) : WinTr :=
  mkWinTr (cards w) (tr_deck w) q (tr_datetime w) (tr_sprd w) (sprd_name w)
    (at_card_ix w) (strv_sprd w) (strv_note w) (btn_quit_enabled w)
    (note_popups w).
Definition with_tr_datetime (t : string) (w : WinTr) : WinTr :=
  mkWinTr (cards w) (tr_deck w) (tr_qry w) t (tr_sprd w) (sprd_name w)
    (at_card_ix w) (strv_sprd w) (strv_note w) (btn_quit_enabled w)
    (note_popups w).
Definition with_tr_sprd (s : list loc) (w : WinTr) : WinTr :=
  mkWinTr (cards w) (tr_deck w) (tr_qry w) (tr_datetime w) s (sprd_name w)
    (at_card_ix w) (strv_sprd w) (strv_note w) (btn_quit_enabled w)
    (note_popups w).
Definition with_sprd_name (n : string) (w : WinTr) : WinTr :=
  mkWinTr (cards w) (tr_deck w) (tr_qry w) (tr_datetime w) (tr_sprd w) n
    (at_card_ix w) (strv_sprd w) (strv_note w) (btn_quit_enabled w)
    (note_popups w).
Definition with_at_card_ix (i : option nat) (w : WinTr) : WinTr :=
  mkWinTr (cards w) (tr_deck w) (tr_qry w) (tr_datetime w) (tr_sprd w)
    (sprd_name w) i (strv_sprd w) (strv_note w) (btn_quit_enabled w)
    (note_popups w).
Definition with_btn_quit (b : bool) (w : WinTr) : WinTr :=
  mkWinTr (cards w) (tr_deck w) (tr_qry w) (tr_datetime w) (tr_sprd w)
    (sprd_name w) (at_card_ix w) (strv_sprd w) (strv_note w) b
    (note_popups w).
Definition with_note_popups (p : list nat) (w : WinTr) : WinTr :=
  mkWinTr (cards w) (tr_deck w) (tr_qry w) (tr_datetime w) (tr_sprd w)
    (sprd_name w) (at_card_ix w) (strv_sprd w) (strv_note w)
    (btn_quit_enabled w) p.

(** Typing in the note popup's entry box sets [strv_note]. *)
Definition type_note (text : string) (w : WinTr) : WinTr :=
  mkWinTr (cards w) (tr_deck w) (tr_qry w) (tr_datetime w) (tr_sprd w)
    (sprd_name w) (at_card_ix w) (strv_sprd w) text (btn_quit_enabled w)
    (note_popups w).

(** Choosing an entry of the "Select Spread" menu sets [strv_sprd]. *)
Definition select_spread (name : string) (w : WinTr) : WinTr :=
  mkWinTr (cards w) (tr_deck w) (tr_qry w) (tr_datetime w) (tr_sprd w)
    (sprd_name w) (at_card_ix w) name (strv_note w) (btn_quit_enabled w)
    (note_popups w).

(** [WinTr.__init__]: load the deck from the rows of the card file,
    create the empty spread, disable the save button. [now] is the
    value of [datetime_str()]. *)
Definition WinTr_init (rows : list CardRow) (now : string) : WinTr :=
  let '(h, d) := fill_deck rows ([], []) in
  {| cards := h; tr_deck := d; tr_qry := Some ""; tr_datetime := now;
     tr_sprd := []; sprd_name := SPREAD_DEFAULT; at_card_ix := None;
     strv_sprd := SPREAD_DEFAULT; strv_note := "";
     btn_quit_enabled := false; note_popups := [] |}.

(** ** class TrSpread *)

(** [TrSpread.add_card]: append the reference to the spread's list and
    write the region onto the card object itself. *)
Definition add_card (ref_card : loc) (min_x min_y max_x max_y : Q)
    (w : WinTr) : WinTr :=
  with_cards
    (alter (set_coords (Some min_x, Some min_y) (Some max_x, Some max_y))
           ref_card (cards w))
    (with_tr_sprd (tr_sprd w ++ [ref_card]) w).

(** ** WinTr.show_spread *)

(** Body of [for i_card in range(len(sprd_config))] (the canvas texts
    it also draws are not modelled). *)
Definition deal_card (sprd_config : list PosEntry) (i_card : nat)
    (w : WinTr) : outcome * WinTr :=
  match sprd_config !! i_card with
  | None => (Raised IndexError, w)
  | Some (col, row, _) =>
      let i_x := (col * CELL_W + CELL_PAD)%Q in
      let i_y := (row * CELL_H + CELL_PAD)%Q in
      match tr_deck w !! i_card with
      | None => (Raised IndexError, w)
      | Some ref_card =>
          (Done, add_card ref_card i_x i_y
                   (i_x + CELL_W - 2 * CELL_PAD)%Q
                   (i_y + CELL_H - 2 * CELL_PAD)%Q w)
      end
  end.

Definition deal_all (sprd_config : list PosEntry) (w : WinTr)
    : outcome * WinTr :=
  for_each (deal_card sprd_config) (seq 0 (length sprd_config)) w.

(** [show_spread] when no event is pending at any of the loop's
    [self.update()] calls, so that nothing else runs between two
    iterations. *)
Definition show_spread (w : WinTr) : outcome * WinTr :=
  match SPREAD_DEFN !! strv_sprd w with
  | None => (Raised (KeyError (strv_sprd w)), w)
  | Some sprd_config =>
      match deal_all sprd_config (with_sprd_name (strv_sprd w) w) with
      | (Done, w') => (Done, with_btn_quit true w')
      | (Raised e, w') => (Raised e, w')
      end
  end.

(** [show_spread] in general. Each iteration starts with
    [self.update()] (line 478), where Tk runs the callbacks of the
    events that are pending: a click on the canvas, a press on Shuffle
    or on Deal Cards, and so on. An exception raised by such a callback
    is reported by Tk and does not reach the loop. [update i_card] is
    what these callbacks do to the session in iteration [i_card].
    [sprd_config] was read before the loop, so the choice of another
    spread in the meantime does not change the positions of this deal;
    the deck is read after the update, through [self.tr_deck.deck]. *)
Definition show_spread_during (update : nat → WinTr → WinTr) (w : WinTr)
    : outcome * WinTr :=
  match SPREAD_DEFN !! strv_sprd w with
  | None => (Raised (KeyError (strv_sprd w)), w)
  | Some sprd_config =>
      match for_each (λ i_card w', deal_card sprd_config i_card
                                     (update i_card w'))
                     (seq 0 (length sprd_config))
                     (with_sprd_name (strv_sprd w) w) with
      | (Done, w') => (Done, with_btn_quit true w')
      | (Raised e, w') => (Raised e, w')
      end
  end.

(** ** WinTr.on_click and the note popup *)

Definition Qltb (a b : Q) : bool :=
  (Qnum a * QDen b <? Qnum b * QDen a)%Z.

(** [a < b] where [b] may be [None]: comparing a number with [None]
    raises [TypeError] (the result [None] here). *)
Definition py_lt (a : Q) (b : option Q) : option bool := Qltb a <$> b.
Definition py_gt (a : Q) (b : option Q) : option bool :=
  (λ b', Qltb b' a) <$> b.

(** [x > min_x and x < max_x and y > min_y and y < max_y], evaluated
    left to right with short circuit. *)
Definition point_in_card (x y : Z) (c : TrCard) : option bool :=
  let '(min_x, min_y) := min_coord c in
  let '(max_x, max_y) := max_coord c in
  b1 ← py_gt (inject_Z x) min_x;
  if negb b1 then Some false else
  b2 ← py_lt (inject_Z x) max_x;
  if negb b2 then Some false else
  b3 ← py_gt (inject_Z y) min_y;
  if negb b3 then Some false else
  py_lt (inject_Z y) max_y.

(** [WinTr.popup_card_note]: reads the card at [at_card_ix], opens the
    popup. *)
Definition popup_card_note (w : WinTr) : outcome * WinTr :=
  match at_card_ix w with
  | None => (Raised TypeError, w)
  | Some ix =>
      match tr_sprd w !! ix with
      | None => (Raised IndexError, w)
      | Some _ => (Done, with_note_popups (note_popups w ++ [ix]) w)
      end
  end.

(** Body of [for i_card_ix in range(len(self.tr_sprd.deck))]. There is
    no [break]: the loop goes on after a hit. *)
Definition click_card (x y : Z) (i_card_ix : nat) (w : WinTr)
    : outcome * WinTr :=
  match tr_sprd w !! i_card_ix with
  | None => (Raised IndexError, w)
  | Some i_card =>
      match point_in_card x y (cards w !!! i_card) with
      | None => (Raised TypeError, w)
      | Some true => popup_card_note (with_at_card_ix (Some i_card_ix) w)
      | Some false => (Done, w)
      end
  end.

Definition on_click (x y : Z) (w : WinTr) : outcome * WinTr :=
  for_each (click_card x y) (seq 0 (length (tr_sprd w))) w.

(** [WinTr.popup_note_close] *)
Definition popup_note_close (w : WinTr) : outcome * WinTr :=
  match at_card_ix w with
  | None => (Raised TypeError, w)
  | Some ix =>
      match tr_sprd w !! ix with
      | None => (Raised IndexError, w)
      | Some c =>
          (Done,
           with_cards (alter (set_rdg_note (strv_note w)) c (cards w)) w)
      end
  end.

(** [WinTr.prompt_qry]: [answer] is what the dialogue returned. *)
Definition prompt_qry (answer : option string) (w : WinTr) : WinTr :=
  with_tr_qry answer w.

(** ** WinTr.popup_shuffle *)

Section popup_shuffle.
Context `{RandomSource}.

(** [now] is the clock reading taken on entry. [self.tr_qry +
    self.tr_datetime] raises [TypeError] when the query dialogue was
    cancelled ([None + str]). *)
Definition popup_shuffle (now : string) (w : WinTr) : outcome * WinTr :=
  let w1 := with_tr_datetime now w in
  match tr_qry w1 with
  | None => (Raised TypeError, w1)
  | Some qry =>
      let '(o, (h, d)) :=
        TrDeck_shuffle (qry +:+ tr_datetime w1) (cards w1, tr_deck w1) in
      (o, with_tr_deck d (with_cards h w1))
  end.

(** The sessions the window can be in: Tk reports an exception raised
    by a callback and carries on, so the state a failed callback leaves
    behind is a state of the session too. *)
Inductive reachable : WinTr → Prop :=
  | reach_init rows now : reachable (WinTr_init rows now)
  | reach_qry answer w : reachable w → reachable (prompt_qry answer w)
  | reach_select name w :
      name ∈ SPREAD_OPTION → reachable w → reachable (select_spread name w)
  | reach_shuffle now w : reachable w → reachable (popup_shuffle now w).2
  | reach_deal w : reachable w → reachable (show_spread w).2
  | reach_click x y w : reachable w → reachable (on_click x y w).2
  | reach_type text w : reachable w → reachable (type_note text w)
  | reach_note w : reachable w → reachable (popup_note_close w).2.

End popup_shuffle.

(** ** WinTr.prompt_quit: export of the reading *)

(** A row handed to [csv.writer.writerow]. *)
Abbreviation Row := (list string) (only parsing).

(** What a global name of the module may be bound to, as far as the
    export loop can tell: a list of position triples, or anything
    else (module, class, function, string, number, dict, ...). *)
Inductive pyval : Type :=
  | PyConfig (cfg : list PosEntry)
  | PyObject.

(** The names bound at module level of pytarot.py when a callback
    runs: the imports, the configuration constants, the function, the
    four classes, [root] and [app_gui]. *)
Definition module_globals : gmap string pyval :=
  list_to_map ((λ n, (n, PyObject)) <$>
    [ "csv"; "os"; "random"; "sys"; "time"; "tk";
      "filedialog"; "simpledialog"; "tkfont";
      "TXT_HELP"; "SPREAD_DEFN"; "SPREAD_OPTION"; "SPREAD_DEFAULT";
      "CARD_FILE"; "DEAL_PAUSE"; "MIN_REV"; "MAX_REV"; "REV_WORD";
      "BTN_WIDTH"; "BTN_SQUEEZE"; "CELL_SZ"; "CELL_PAD"; "CNV_SZ";
      "datetime_str"; "TrCard"; "TrDeck"; "TrSpread"; "WinTr";
      "root"; "app_gui" ]).

(** The names [prompt_quit] assigns, hence its locals; every other
    name in its body is looked up among the globals. *)
Definition prompt_quit_locals : list string :=
  ["self"; "f_name"; "f_handle"; "f_writer"; "i_card"; "f_row"].

(** [csv.writer] writes [None] as the empty field. *)
Definition csv_field (v : option string) : string := default "" v.

Definition header_row (w : WinTr) : Row :=
  ["PyTarot reading"; strv_sprd w; tr_datetime w; csv_field (tr_qry w)].

(** Body of the export loop, given a value for [sprd_config]; the
    state is the list of rows written so far. *)
Definition export_card (sprd_config : list PosEntry) (w : WinTr)
    (i_card : nat) (rows : list Row) : outcome * list Row :=
  match sprd_config !! i_card with
  | None => (Raised IndexError, rows)
  | Some (_, _, label) =>
      match tr_deck w !! i_card with
      | None => (Raised IndexError, rows)
      | Some c =>
          let card := cards w !!! c in
          let f_row1 :=
            if is_rev card then card_name card +:+ " " +:+ REV_WORD
            else card_name card in
          (Done, rows ++ [[label; f_row1]])
      end
  end.

(** [prompt_quit] run against a given global namespace. [f_name] is
    the file dialogue's answer and [can_open] tells whether [open]
    succeeds. The result is the outcome and the content of the file,
    if one was created. Normal completion stands for the final
    [sys.exit()]. *)
Definition prompt_quit_in (globals : gmap string pyval)
    (f_name : string) (can_open : bool) (w : WinTr)
    : outcome * option (list Row) :=
  if bool_decide (f_name = "") then (Done, None)
  else if negb can_open then (Raised OSError, None)
  else
    let rows := [header_row w] in
    if bool_decide ("sprd_config" ∈ prompt_quit_locals) then
      (* a local that no statement before the loop assigns:
         UnboundLocalError, which is a NameError *)
      (Raised (NameError "sprd_config"), Some rows)
    else
      match globals !! "sprd_config" with
      | None => (Raised (NameError "sprd_config"), Some rows)
      | Some PyObject => (Raised TypeError, Some rows)
      | Some (PyConfig sprd_config) =>
          let '(o, rows') :=
            for_each (export_card sprd_config w)
                     (seq 0 (length sprd_config)) rows in
          (o, Some rows')
      end.

Definition prompt_quit (f_name : string) (can_open : bool) (w : WinTr)
    : outcome * option (list Row) :=
  prompt_quit_in module_globals f_name can_open w.

(** ** A concrete generator for examples

    A linear congruential generator over [N]: any generator that
    meets the interface can stand in for Python's when a property is
    run on concrete data. *)

Fixpoint lcg_absorb (acc : N) (s : string) : N :=
  match s with
  | EmptyString => acc
  | String c s' => lcg_absorb ((acc * 31 + N_of_ascii c) mod 2147483648)%N s'
  end.

Definition lcg_seed (s : string) : N :=
  ((lcg_absorb 0 s * 1103515245 + 12345) mod 2147483648)%N.

Definition lcg_randbelow (n : nat) (g : N) : nat * N :=
  (N.to_nat ((g / 65536) mod N.of_nat n),
   (g * 1103515245 + 12345) mod 2147483648)%N.

Lemma lcg_randbelow_lt n g : 0 < n → (lcg_randbelow n g).1 < n.
Proof.
  intros Hn. unfold lcg_randbelow. simpl.
  assert (((g / 65536) mod N.of_nat n < N.of_nat n)%N) by (apply N.mod_lt; lia).
  lia.
Qed.

Definition lcg_source : RandomSource :=
  {| rng := N; seed_rng := lcg_seed; randbelow := lcg_randbelow;
     randbelow_lt := lcg_randbelow_lt |}.

(** ** Concrete decks for examples *)

(** A card file of 78 rows. *)
Definition full_rows : list CardRow :=
  (λ i : nat, ("Card " +:+ pretty i, pretty i, "up", "rev")) <$> seq 0 78.

(** The deck a fresh session loads from it. *)
Definition full_deck : list TrCard * list nat := fill_deck full_rows ([], []).

(** A card file of six rows, loaded twice: into an empty store, and
    into a store that already holds an unrelated object, so that the
    two decks hold equal cards under different references. *)
Definition six_rows : list CardRow :=
  [ ("The Fool", "M00", "beginnings", "recklessness");
    ("The Tower", "M16", "upheaval", "averted disaster");
    ("The Sun", "M19", "joy", "sadness");
    ("The Moon", "M18", "illusion", "clarity");
    ("The Star", "M17", "hope", "despair");
    ("The Magician", "M01", "skill", "trickery") ].

Definition six_deck : list TrCard * list nat := fill_deck six_rows ([], []).
Definition six_deck' : list TrCard * list nat :=
  fill_deck six_rows ([TrCard_init "Joker" "J" "" ""], []).

Definition demo_seed : string := "What now?2021-04-07 12:18:00".

(** The catalogue entry of the three-card spread. *)
Definition three_card_cfg : list (Q * Q * string) :=
  [ (0, 3#2, "1. Past"); (3#2, 3#2, "2. Present"); (3, 3#2, "3. Future") ]%Q.

(** A fresh session on the six cards, the three-card spread chosen. *)
Definition six_session : WinTr :=
  select_spread "3 Card Simple Quick"
    (WinTr_init six_rows "2021-04-07 12:17:30").

(** The same session after the query "What now?" was entered, the deck
    shuffled at 12:18:00 and the three cards dealt. *)
Definition dealt_session : WinTr :=
  (show_spread
     (@popup_shuffle lcg_source "2021-04-07 12:18:00"
        (prompt_qry (Some "What now?") six_session)).2).2.

(** ** Auxiliary definitions used to state the properties *)

(** Toggling the cards a list of references names, in order. *)
Definition toggle_all (ls : list loc) (h : store) : store :=
  foldl (λ h' l, alter toggle_rev l h') h ls.

(** On card values: the first [n] toggled, the rest as they are. *)
Definition toggle_first (n : nat) (cs : list TrCard) : list TrCard :=
  (toggle_rev <$> take n cs) ++ drop n cs.

(** What the shuffle can see of a card: name, code, the two keyword
    texts and the reversal flag (not the note, not the region). *)
Definition card_face (c : TrCard)
    : string * string * string * string * bool :=
  (card_name c, card_code c, keywd_up c, keywd_rev c, is_rev c).

Definition flip_face (f : string * string * string * string * bool)
    : string * string * string * string * bool :=
  (f.1, negb f.2).

(** The faces a deck holds, in deck order. *)
Definition deck_faces (h : store) (d : list loc)
    : list (string * string * string * string * bool) :=
  card_face <$> deck_view h d.

(** A list read through a list of positions. *)
Definition reorder {A} `{Inhabited A} (p : list nat) (x : list A) : list A :=
  (λ i, x !!! i) <$> p.

Section shuffle_values.
Context `{RandomSource}.

(** What [TrDeck.shuffle] does, told on the sequence of card values. *)
Definition shuffle_cards (qry_hash : string) (cs : list TrCard)
    : outcome * list TrCard :=
  let '(n_rev, g1) := randint MIN_REV MAX_REV (seed_rng qry_hash) in
  let '(c1, g2) := random_shuffle cs g1 in
  if decide (n_rev ≤ length c1)
  then (Done, (random_shuffle (toggle_first n_rev c1) g2).1)
  else (Raised IndexError, toggle_first n_rev c1).

(** The draws of one call on a deck of [m] cards: the number of cards
    to toggle and the two permutations, as lists of positions. *)
Definition shuffle_draws (qry_hash : string) (m : nat)
    : nat * list nat * list nat :=
  let '(n_rev, g1) := randint MIN_REV MAX_REV (seed_rng qry_hash) in
  let '(p1, g2) := random_shuffle (seq 0 m) g1 in
  let '(p2, _) := random_shuffle (seq 0 m) g2 in
  (n_rev, p1, p2).
End shuffle_values.

(** Applying given draws to a deck. *)
Definition replay (draws : nat * list nat * list nat)
    (hd : store * list loc) : outcome * (store * list loc) :=
  let '(n_rev, p1, p2) := draws in
  let '(h, d) := hd in
  let d1 := reorder p1 d in
  match for_each (toggle_at d1) (seq 0 n_rev) h with
  | (Raised e, h') => (Raised e, (h', d1))
  | (Done, h') => (Done, (h', reorder p2 d1))
  end.

(** The region [show_spread] computes for a position, as the two
    corner points it hands to [add_card]. *)
Definition entry_region (e : PosEntry)
    : (option Q * option Q) * (option Q * option Q) :=
  let '(col, row, _) := e in
  let i_x := (col * CELL_W + CELL_PAD)%Q in
  let i_y := (row * CELL_H + CELL_PAD)%Q in
  ((Some i_x, Some i_y),
   (Some (i_x + CELL_W - 2 * CELL_PAD)%Q,
    Some (i_y + CELL_H - 2 * CELL_PAD)%Q)).

(** One successful iteration of the deal loop. *)
Definition place_entry (w : WinTr) (ec : PosEntry * loc) : WinTr :=
  with_cards
    (alter (set_coords (entry_region ec.1).1 (entry_region ec.1).2)
           ec.2 (cards w))
    (with_tr_sprd (tr_sprd w ++ [ec.2]) w).

(** A card that has been given a region. *)
Definition card_placed (c : TrCard) : Prop :=
  is_Some (min_coord c).1 ∧ is_Some (min_coord c).2 ∧
  is_Some (max_coord c).1 ∧ is_Some (max_coord c).2.

Definition spread_placed (w : WinTr) : Prop :=
  Forall (λ c, card_placed (cards w !!! c)) (tr_sprd w).

#[global] Instance spread_placed_dec w : Decision (spread_placed w).
Proof. unfold spread_placed, card_placed. apply _. Defined.

(** The point lies strictly inside the card's region, on both axes. *)
Definition region_contains (x y : Z) (c : TrCard) : Prop :=
  ∃ min_x min_y max_x max_y,
    min_coord c = (Some min_x, Some min_y) ∧
    max_coord c = (Some max_x, Some max_y) ∧
    (min_x < inject_Z x)%Q ∧ (inject_Z x < max_x)%Q ∧
    (min_y < inject_Z y)%Q ∧ (inject_Z y < max_y)%Q.

(** Placement [i] of the spread is hit by the point. *)
Definition hit (x y : Z) (h : store) (sprd : list loc) (i : nat) : bool :=
  match sprd !! i with
  | Some c => bool_decide (point_in_card x y (h !!! c) = Some true)
  | None => false
  end.

(** The placements hit, in increasing index order. *)
Definition hits (x y : Z) (w : WinTr) : list nat :=
  filter (λ i, hit x y (cards w) (tr_sprd w) i)
         (seq 0 (length (tr_sprd w))).

(** One iteration of the click loop on a placed card. *)
Definition click_step (x y : Z) (w : WinTr) (i : nat) : WinTr :=
  if hit x y (cards w) (tr_sprd w) i
  then with_note_popups (note_popups w ++ [i]) (with_at_card_ix (Some i) w)
  else w.

(** The session after a click that hit the placements [hs]. *)
Definition click_result (w : WinTr) (hs : list nat) : WinTr :=
  match last hs with
  | None => w
  | Some i => with_note_popups (note_popups w ++ hs)
                               (with_at_card_ix (Some i) w)
  end.

(** ** Further definitions: loading, callbacks, regions *)

(** The card [fill_deck] builds from a row. *)
Definition card_of_row (r : string * string * string * string) : TrCard :=
  let '(cnm, ccd, kwu, kwr) := r in TrCard_init cnm ccd kwu kwr.

(** A row as [csv.DictReader] yields it: a dict from the column names
    of the header line to the fields of the row, [None] for a column
    that a short row does not reach. (Fields beyond the header are
    collected under the key [None], which the loop never reads.) *)
Abbreviation CsvRow := (gmap string (option string)) (only parsing).

(** The values handed to the [TrCard] constructor for one row. *)
Abbreviation CardArgs :=
  (option string * option string * option string * option string)%type
  (only parsing).

Definition CSV_COLUMNS : list string := ["Card"; "Code"; "Keyword"; "Reversed"].

(** [i_row['Card']], [i_row['Code']], [i_row['Keyword']],
    [i_row['Reversed']], evaluated from left to right: the first
    column the dict lacks raises [KeyError]. *)
Definition row_args (i_row : CsvRow) : exn + CardArgs :=
  match i_row !! "Card" with
  | None => inl (KeyError "Card")
  | Some cnm =>
      match i_row !! "Code" with
      | None => inl (KeyError "Code")
      | Some ccd =>
          match i_row !! "Keyword" with
          | None => inl (KeyError "Keyword")
          | Some kwu =>
              match i_row !! "Reversed" with
              | None => inl (KeyError "Reversed")
              | Some kwr => inr (cnm, ccd, kwu, kwr)
              end
          end
      end
  end.

(** [for i_row in rdr_deck]: the constructor calls made, in order,
    until the rows end or a subscript raises. *)
Fixpoint read_rows (rows : list CsvRow) : outcome * list CardArgs :=
  match rows with
  | [] => (Done, [])
  | i_row :: rows' =>
      match row_args i_row with
      | inl e => (Raised e, [])
      | inr a => let '(o, args) := read_rows rows' in (o, a :: args)
      end
  end.

(** The attributes of [TrCard] are strings in this development: a
    constructor call is in its range when none of the values is
    [None]. *)
Definition args_row (a : CardArgs) : option CardRow :=
  match a with
  | (Some cnm, Some ccd, Some kwu, Some kwr) => Some (cnm, ccd, kwu, kwr)
  | _ => None
  end.

(** The constructor call of a row of four strings. *)
Definition card_args (r : CardRow) : CardArgs :=
  let '(cnm, ccd, kwu, kwr) := r in (Some cnm, Some ccd, Some kwu, Some kwr).

(** [TrDeck.fill_deck] on the rows of the reader: the outcome of the
    loop and the deck it leaves, the cards of the rows read before an
    exception included. The result is [None] when a card would be
    built from a [None] field (a row shorter than the header), which
    the card record cannot hold. *)
Definition fill_deck_csv (rows : list CsvRow) (hd : store * list loc)
    : option (outcome * (store * list loc)) :=
  let '(o, args) := read_rows rows in
  match mapM args_row args with
  | Some trows => Some (o, fill_deck trows hd)
  | None => None
  end.

(** The dict holds these four strings under the four column names. *)
Definition row_holds (i_row : CsvRow) (r : CardRow) : Prop :=
  let '(cnm, ccd, kwu, kwr) := r in
  i_row !! "Card" = Some (Some cnm) ∧ i_row !! "Code" = Some (Some ccd) ∧
  i_row !! "Keyword" = Some (Some kwu) ∧ i_row !! "Reversed" = Some (Some kwr).

(** The buttons and bindings of the window ([WinTr.__init__] wires
    them to the methods named). *)
Inductive callback : Type :=
  | CbQuery (answer : option string)   (* "Enter Query": prompt_qry *)
  | CbSelect (name : string)           (* the "Select Spread" menu *)
  | CbShuffle (now : string)           (* "Shuffle": popup_shuffle *)
  | CbDeal                             (* "Deal Cards": show_spread *)
  | CbClick (x y : Z)                  (* <Button-1> on the canvas *)
  | CbType (text : string)             (* typing in the note entry *)
  | CbNoteClose.                       (* "OK" of the note popup *)

Section callbacks.
Context `{RandomSource}.

(** The session after a callback has run, whether it completed or
    raised. *)
Definition run_callback (cb : callback) (w : WinTr) : WinTr :=
  match cb with
  | CbQuery answer => prompt_qry answer w
  | CbSelect name => select_spread name w
  | CbShuffle now => (popup_shuffle now w).2
  | CbDeal => (show_spread w).2
  | CbClick x y => (on_click x y w).2
  | CbType text => type_note text w
  | CbNoteClose => (popup_note_close w).2
  end.
End callbacks.

(** A card whose region has its minimum strictly below its maximum on
    both axes. *)
Definition region_ok (c : TrCard) : Prop :=
  ∃ min_x min_y max_x max_y,
    min_coord c = (Some min_x, Some min_y) ∧
    max_coord c = (Some max_x, Some max_y) ∧
    (min_x < max_x)%Q ∧ (min_y < max_y)%Q.

(** The region of a position as a box (min x, min y, max x, max y). *)
Definition entry_box (e : PosEntry) : Q * Q * Q * Q :=
  let '(col, row, _) := e in
  let i_x := (col * CELL_W + CELL_PAD)%Q in
  let i_y := (row * CELL_H + CELL_PAD)%Q in
  (i_x, i_y, (i_x + CELL_W - 2 * CELL_PAD)%Q, (i_y + CELL_H - 2 * CELL_PAD)%Q).

Definition in_box (x y : Z) (b : Q * Q * Q * Q) : Prop :=
  let '(min_x, min_y, max_x, max_y) := b in
  (min_x < inject_Z x)%Q ∧ (inject_Z x < max_x)%Q ∧
  (min_y < inject_Z y)%Q ∧ (inject_Z y < max_y)%Q.

(** Two boxes separated along one axis. *)
Definition boxes_disjoint (b1 b2 : Q * Q * Q * Q) : bool :=
  let '(min_x1, min_y1, max_x1, max_y1) := b1 in
  let '(min_x2, min_y2, max_x2, max_y2) := b2 in
  Qle_bool max_x1 min_x2 || Qle_bool max_x2 min_x1 ||
  Qle_bool max_y1 min_y2 || Qle_bool max_y2 min_y1.

Fixpoint pairwise_disjoint (cfg : list PosEntry) : bool :=
  match cfg with
  | [] => true
  | e :: rest =>
      forallb (λ e', boxes_disjoint (entry_box e) (entry_box e')) rest
      && pairwise_disjoint rest
  end.

(** The row the export loop writes for a position and a card. *)
Definition export_row (h : store) (e : PosEntry) (c : loc) : Row :=
  [e.2; TrCard_str (h !!! c)].

(** The region a card carries. *)
Definition card_region (c : TrCard)
    : (option Q * option Q) * (option Q * option Q) :=
  (min_coord c, max_coord c).

(** What runs during an [update()] leaves the layout alone when it
    changes neither the deck list, nor the spread list, nor the number
    of card objects, nor the region any card carries. Clicks, notes,
    queries and the choice of another spread are of this kind; a
    shuffle or another deal is not. *)
Definition keeps_layout (f : WinTr → WinTr) : Prop :=
  ∀ w, tr_deck (f w) = tr_deck w ∧ tr_sprd (f w) = tr_sprd w ∧
       length (cards (f w)) = length (cards w) ∧
       ∀ c, card_region (cards (f w) !!! c) = card_region (cards w !!! c).

(** The six-card session with its query entered, before any deal. *)
Definition asked_session : WinTr := prompt_qry (Some "What now?") six_session.

(** A press on Shuffle at 12:18:00 that Tk dispatches at the second
    [update()] of a deal; nothing else is pending. *)
Definition shuffle_at_second_update (i_card : nat) (w : WinTr) : WinTr :=
  if decide (i_card = 1)
  then (@popup_shuffle lcg_source "2021-04-07 12:18:00" w).2
  else w.

(** A press on Deal Cards that Tk dispatches at the second [update()]
    of a deal; nothing is pending during the deal it starts. *)
Definition deal_at_second_update (i_card : nat) (w : WinTr) : WinTr :=
  if decide (i_card = 1) then (show_spread w).2 else w.

(** A click on the canvas at every [update()] of a deal. *)
Definition click_at_every_update (i_card : nat) (w : WinTr) : WinTr :=
  (on_click 100 300 w).2.

(** The six cards dealt without a shuffle, the first one annotated. *)
Definition six_annotated : WinTr :=
  (popup_note_close
     (type_note "a new start"
        (on_click 100 300 (show_spread six_session).2).2)).2.

(** The six rows as the reader yields them, and the rows of a file
    whose header has no column [Reversed]. *)
Definition six_csv : list (gmap string (option string)) :=
  (λ '(cnm, ccd, kwu, kwr),
     {[ "Card" := Some cnm; "Code" := Some ccd;
        "Keyword" := Some kwu; "Reversed" := Some kwr ]}) <$> six_rows.

Definition three_column_csv : list (gmap string (option string)) :=
  (λ '(cnm, ccd, kwu, _),
     {[ "Card" := Some cnm; "Code" := Some ccd; "Keyword" := Some kwu ]})
  <$> six_rows.

(** What holds of every session (see [reachable_session_inv]). *)
Definition session_inv (w : WinTr) : Prop :=
  strv_sprd w ∈ SPREAD_OPTION ∧
  tr_deck w ≡ₚ seq 0 (length (cards w)) ∧
  tr_sprd w ⊆ tr_deck w ∧
  (∀ ix, at_card_ix w = Some ix → ix < length (tr_sprd w)) ∧
  Forall (λ ix, ix < length (tr_sprd w)) (note_popups w) ∧
  (btn_quit_enabled w = true → tr_sprd w ≠ []) ∧
  Forall (λ c, region_ok (cards w !!! c)) (tr_sprd w).

(** * Properties *)

(** ** Exchanging two elements *)

Lemma swap_length {A} i j (x : list A) : length (swap i j x) = length x.
Proof.
  unfold swap. destruct (x !! i), (x !! j); try done.
  by rewrite !length_insert.
Qed.

Lemma swap_fmap {A B} (f : A → B) i j (x : list A) :
  swap i j (f <$> x) = f <$> swap i j x.
Proof.
  unfold swap. rewrite !list_lookup_fmap.
  destruct (x !! i), (x !! j); simpl; try done.
  by rewrite !list_fmap_insert.
Qed.

(** The index map of a transposition. *)
Definition transpose (i j k : nat) : nat :=
  if decide (k = i) then j else if decide (k = j) then i else k.

Lemma transpose_inj i j : Inj (=) (=) (transpose i j).
Proof.
  intros a b. unfold transpose. repeat case_decide; congruence.
Qed.

Lemma swap_lookup {A} i j (x : list A) k :
  i < length x → j < length x →
  swap i j x !! k = x !! transpose i j k.
Proof.
  intros Hi Hj. unfold swap, transpose.
  destruct (lookup_lt_is_Some_2 x i Hi) as [a Ha].
  destruct (lookup_lt_is_Some_2 x j Hj) as [b Hb].
  rewrite Ha, Hb, !list_lookup_insert, !length_insert.
  repeat case_decide; destruct_and?; subst; try done; try lia; congruence.
Qed.

Lemma swap_perm {A} i j (x : list A) : swap i j x ≡ₚ x.
Proof.
  destruct (decide (i < length x ∧ j < length x)) as [[Hi Hj]|Hout].
  - apply Permutation_inj. split; [apply swap_length|].
    exists (transpose i j). split; [apply transpose_inj|].
    intros k. by apply swap_lookup.
  - unfold swap.
    destruct (x !! i) eqn:Ei, (x !! j) eqn:Ej; try done.
    apply lookup_lt_Some in Ei, Ej. lia.
Qed.

(** ** random.shuffle *)

Section shuffle_facts.
Context `{RandomSource}.

Lemma randint_range a b g : a ≤ b → a ≤ (randint a b g).1 ≤ b.
Proof.
  intros Hab. unfold randint.
  pose proof (randbelow_lt (b - a + 1) g ltac:(lia)) as Hlt.
  destruct (randbelow (b - a + 1) g) as [r g']. simpl in *. lia.
Qed.

Lemma shuffle_loop_S {A} i (x : list A) g :
  shuffle_loop (S i) x g
  = shuffle_loop i (swap (S i) (randbelow (S i + 1) g).1 x)
                 (randbelow (S i + 1) g).2.
Proof. simpl. by destruct (randbelow _ g). Qed.

Lemma shuffle_loop_fmap {A B} (f : A → B) i (x : list A) g :
  shuffle_loop i (f <$> x) g
  = (f <$> (shuffle_loop i x g).1, (shuffle_loop i x g).2).
Proof.
  revert x g. induction i as [|i IH]; intros x g; [done|].
  by rewrite !shuffle_loop_S, swap_fmap, IH.
Qed.

Lemma random_shuffle_fmap {A B} (f : A → B) (x : list A) g :
  random_shuffle (f <$> x) g
  = (f <$> (random_shuffle x g).1, (random_shuffle x g).2).
Proof. unfold random_shuffle. by rewrite length_fmap, shuffle_loop_fmap. Qed.

Lemma shuffle_loop_perm {A} i (x : list A) g : (shuffle_loop i x g).1 ≡ₚ x.
Proof.
  revert x g. induction i as [|i IH]; intros x g; [done|].
  rewrite shuffle_loop_S, IH. apply swap_perm.
Qed.

Lemma random_shuffle_perm {A} (x : list A) g : (random_shuffle x g).1 ≡ₚ x.
Proof. apply shuffle_loop_perm. Qed.

Lemma random_shuffle_length {A} (x : list A) g :
  length (random_shuffle x g).1 = length x.
Proof. by rewrite random_shuffle_perm. Qed.

(** Every exchange [random.shuffle] makes has both indices in range:
    the total [swap] never takes its out-of-range branch there. *)
Lemma shuffle_exchange_in_range {A} (x : list A) i g :
  0 < i < length x →
  let j := (randbelow (i + 1) g).1 in
  is_Some (x !! i) ∧ is_Some (x !! j).
Proof.
  intros Hi j. pose proof (randbelow_lt (i + 1) g ltac:(lia)) as Hj.
  split; apply lookup_lt_is_Some; unfold j; lia.
Qed.

End shuffle_facts.

(** ** The reversal loop *)

Lemma for_each_toggle d k i h :
  i ≤ length d →
  for_each (toggle_at d) (seq i k) h
  = (if decide (i + k ≤ length d) then Done else Raised IndexError,
     toggle_all (take k (drop i d)) h).
Proof.
  revert i h. induction k as [|k IH]; intros i h Hi; simpl.
  - by rewrite decide_True by lia.
  - unfold toggle_at at 1. destruct (d !! i) as [l|] eqn:El.
    + apply lookup_lt_Some in El as Hlt.
      rewrite IH by lia. rewrite (drop_S _ _ _ El). simpl.
      f_equal. repeat case_decide; try done; lia.
    + apply lookup_ge_None in El.
      rewrite decide_False by lia. by rewrite drop_ge by lia.
Qed.

Lemma toggle_all_length ls h : length (toggle_all ls h) = length h.
Proof.
  revert h. induction ls as [|a ls IH]; intros h; [done|].
  change (toggle_all (a :: ls) h) with (toggle_all ls (alter toggle_rev a h)).
  rewrite IH. apply length_alter.
Qed.

Lemma toggle_all_lookup ls h l :
  NoDup ls →
  toggle_all ls h !! l
  = if decide (l ∈ ls) then toggle_rev <$> h !! l else h !! l.
Proof.
  intros Hnd. revert h. induction Hnd as [|a ls Ha Hnd IH]; intros h.
  - destruct (decide (l ∈ [])) as [Hin|_]; [by apply elem_of_nil in Hin|done].
  - change (toggle_all (a :: ls) h) with (toggle_all ls (alter toggle_rev a h)).
    rewrite IH. destruct (decide (l = a)) as [->|Hne].
    + rewrite decide_False by done. rewrite decide_True by set_solver.
      rewrite list_lookup_alter. by rewrite decide_True.
    + rewrite list_lookup_alter_ne by done.
      destruct (decide (l ∈ ls)) as [Hin|Hin],
               (decide (l ∈ a :: ls)) as [Hin'|Hin']; try done;
        rewrite elem_of_cons in Hin'; tauto.
Qed.

Lemma toggle_all_lookup_total ls h l :
  NoDup ls → l < length h →
  toggle_all ls h !!! l
  = if decide (l ∈ ls) then toggle_rev (h !!! l) else h !!! l.
Proof.
  intros Hnd Hl. apply list_lookup_total_correct.
  rewrite toggle_all_lookup by done.
  rewrite (list_lookup_lookup_total_lt h l Hl). by case_decide.
Qed.

(** Toggling leaves every attribute other than [is_rev] alone. *)
Lemma toggle_all_attr {B} (f : TrCard → B) ls h l :
  (∀ c, f (toggle_rev c) = f c) →
  f <$> toggle_all ls h !! l = f <$> h !! l.
Proof.
  intros Hf. revert h. induction ls as [|a ls IH]; intros h; [done|].
  change (toggle_all (a :: ls) h) with (toggle_all ls (alter toggle_rev a h)).
  rewrite IH, list_lookup_alter. case_decide; [subst|done].
  destruct (h !! l); simpl; [|done]. by rewrite Hf.
Qed.

Lemma toggle_all_ident ls h l :
  card_ident <$> toggle_all ls h !! l = card_ident <$> h !! l.
Proof. by apply toggle_all_attr. Qed.

Lemma attr_lookup_total {B} (f : TrCard → B) (h h' : list TrCard) l :
  f <$> h' !! l = f <$> h !! l → f (h' !!! l) = f (h !!! l).
Proof.
  rewrite !list_lookup_total_alt.
  destruct (h' !! l), (h !! l); simpl; congruence.
Qed.

(** ** Well-formed decks *)

Lemma deck_wf_perm h d d' : d ≡ₚ d' → deck_wf h d → deck_wf h d'.
Proof.
  intros Hp [Hnd Hlive]. split; by rewrite <- Hp.
Qed.

Lemma deck_wf_store h h' d :
  length h' = length h → deck_wf h d → deck_wf h' d.
Proof. intros Hlen [Hnd Hlive]. split; [done|]. rewrite Hlen. done. Qed.

Lemma deck_view_toggle h d n :
  deck_wf h d →
  deck_view (toggle_all (take n d) h) d = toggle_first n (deck_view h d).
Proof.
  intros [Hnd Hlive]. rewrite Forall_forall in Hlive.
  unfold toggle_first, deck_view.
  rewrite <- fmap_take, <- fmap_drop, <- list_fmap_compose.
  rewrite <- (take_drop n d) at 1. rewrite fmap_app.
  rewrite <- (take_drop n d) in Hnd. apply NoDup_app in Hnd as (Hnd1 & Hdisj & _).
  f_equal; apply list_fmap_ext; intros i l Hl; simpl.
  - assert (l ∈ take n d) as Hin by (apply list_elem_of_lookup; eauto).
    rewrite toggle_all_lookup_total, decide_True; try done.
    apply Hlive. rewrite <- (take_drop n d). set_solver.
  - assert (l ∈ drop n d) as Hin by (apply list_elem_of_lookup; eauto).
    rewrite toggle_all_lookup_total, decide_False; try done.
    + intros Hin'. by apply (Hdisj l).
    + apply Hlive. rewrite <- (take_drop n d). set_solver.
Qed.

(** ** TrDeck.shuffle *)

Section shuffle_props.
Context `{RandomSource}.

(** The shuffle of a well-formed deck, read on card values, is the
    value-level shuffle of what the deck held. *)
Lemma shuffle_view s h d :
  deck_wf h d →
  let r := TrDeck_shuffle s (h, d) in
  (r.1, deck_view r.2.1 r.2.2) = shuffle_cards s (deck_view h d).
Proof.
  intros Hwf. unfold TrDeck_shuffle, shuffle_cards. simpl.
  destruct (randint MIN_REV MAX_REV (seed_rng s)) as [n g1].
  unfold deck_view at 2. rewrite random_shuffle_fmap.
  pose proof (random_shuffle_perm d g1) as Hp1.
  destruct (random_shuffle d g1) as [d1 g2]. simpl in *.
  assert (deck_wf h d1) as Hwf1 by (eapply deck_wf_perm; [symmetry|]; done).
  rewrite for_each_toggle by lia. rewrite drop_0, length_fmap. simpl.
  pose proof (deck_view_toggle h d1 n Hwf1) as Hv. unfold deck_view in Hv.
  case_decide; simpl.
  - rewrite <- Hv. rewrite random_shuffle_fmap.
    by destruct (random_shuffle d1 g2).
  - by rewrite <- Hv.
Qed.

Lemma shuffle_store_and_deck s h d :
  let r := TrDeck_shuffle s (h, d) in
  ∃ ls, r.2.1 = toggle_all ls h ∧ r.2.2 ≡ₚ d.
Proof.
  unfold TrDeck_shuffle. simpl.
  destruct (randint MIN_REV MAX_REV (seed_rng s)) as [n g1].
  pose proof (random_shuffle_perm d g1) as Hp1.
  destruct (random_shuffle d g1) as [d1 g2]. simpl in *.
  rewrite for_each_toggle by lia. rewrite drop_0.
  exists (take n d1). case_decide; simpl; [|done].
  pose proof (random_shuffle_perm d1 g2) as Hp2.
  destruct (random_shuffle d1 g2) as [d2 g3]. simpl in *.
  split; [done|]. by rewrite Hp2.
Qed.

Lemma shuffle_keeps_wf s h d :
  deck_wf h d →
  deck_wf (TrDeck_shuffle s (h, d)).2.1 (TrDeck_shuffle s (h, d)).2.2.
Proof.
  intros Hwf. destruct (shuffle_store_and_deck s h d) as (ls & Hh & Hd).
  eapply deck_wf_perm; [symmetry; exact Hd|].
  eapply deck_wf_store; [|exact Hwf]. rewrite Hh. apply toggle_all_length.
Qed.

Lemma card_ident_lookup_total (h h' : store) l :
  card_ident <$> h' !! l = card_ident <$> h !! l →
  card_ident (h' !!! l) = card_ident (h !!! l).
Proof. apply attr_lookup_total. Qed.

(** C10. Shuffling neither adds nor removes a card: the deck after a
    shuffle is a rearrangement of the deck before (same length), the
    store holds the same number of card objects, every card object
    keeps its name, code and keywords, and so the identities held by
    the deck are the same up to order. This holds for every seed and
    every deck, also when the reversal loop runs off a deck shorter
    than the number drawn. *)
Theorem shuffle_preserves_cards s h d :
  let r := TrDeck_shuffle s (h, d) in
  r.2.2 ≡ₚ d ∧
  length r.2.2 = length d ∧
  length r.2.1 = length h ∧
  (∀ l, card_ident <$> r.2.1 !! l = card_ident <$> h !! l) ∧
  card_ident <$> deck_view r.2.1 r.2.2 ≡ₚ card_ident <$> deck_view h d.
Proof.
  intros r. destruct (shuffle_store_and_deck s h d) as (ls & Hh & Hd).
  fold r in Hh, Hd.
  assert (∀ l, card_ident <$> r.2.1 !! l = card_ident <$> h !! l) as Hid.
  { intros l. rewrite Hh. apply toggle_all_ident. }
  repeat split; try done.
  - by rewrite Hd.
  - rewrite Hh. apply toggle_all_length.
  - unfold deck_view. rewrite <- !list_fmap_compose.
    rewrite Hd.
    match goal with |- ?a ≡ₚ ?b => assert (a = b) as ->; [|done] end.
    apply list_fmap_ext. intros i l _. simpl.
    by apply card_ident_lookup_total.
Qed.

Lemma faces_toggle_first n cs :
  card_face <$> toggle_first n cs
  = (flip_face <$> take n (card_face <$> cs)) ++ drop n (card_face <$> cs).
Proof.
  unfold toggle_first.
  rewrite fmap_app, <- fmap_take, <- fmap_drop, <- !list_fmap_compose.
  reflexivity.
Qed.

(** The outcome of the value-level shuffle and the faces it leaves
    depend on the faces it is given only. *)
Lemma shuffle_cards_faces s cs cs' :
  card_face <$> cs = card_face <$> cs' →
  (shuffle_cards s cs).1 = (shuffle_cards s cs').1 ∧
  card_face <$> (shuffle_cards s cs).2 = card_face <$> (shuffle_cards s cs').2.
Proof.
  intros Hf. unfold shuffle_cards.
  destruct (randint MIN_REV MAX_REV (seed_rng s)) as [n g1].
  pose proof (random_shuffle_fmap card_face cs g1) as E1.
  pose proof (random_shuffle_fmap card_face cs' g1) as E2.
  rewrite Hf, E2 in E1. clear E2.
  destruct (random_shuffle cs g1) as [c1 g2],
           (random_shuffle cs' g1) as [c1' g2'].
  simpl in E1. injection E1 as Hc1 Hg. subst g2'.
  assert (length c1 = length c1') as Hlen.
  { by rewrite <- (length_fmap card_face c1), <- Hc1, length_fmap. }
  assert (card_face <$> toggle_first n c1 = card_face <$> toggle_first n c1')
    as Ht by (by rewrite !faces_toggle_first, Hc1).
  rewrite Hlen. case_decide; simpl; [|done].
  split; [done|].
  pose proof (random_shuffle_fmap card_face (toggle_first n c1) g2) as E3.
  pose proof (random_shuffle_fmap card_face (toggle_first n c1') g2) as E4.
  rewrite Ht, E4 in E3. by injection E3 as -> _.
Qed.

(** C1. The shuffle is a function of the seed and of the names, codes,
    keywords and reversal flags the deck holds, in order: two
    well-formed decks (possibly in different stores, with different
    object identities, notes and regions) that hold the same sequence
    of names, codes, keywords and flags end, under the same seed, with
    the same outcome and the same sequence of names, codes, keywords
    and flags. If they also agree on notes and regions, they still do
    afterwards. *)
Theorem shuffle_deterministic s h1 d1 h2 d2 :
  deck_wf h1 d1 → deck_wf h2 d2 →
  deck_faces h1 d1 = deck_faces h2 d2 →
  let r1 := TrDeck_shuffle s (h1, d1) in
  let r2 := TrDeck_shuffle s (h2, d2) in
  r1.1 = r2.1 ∧
  deck_faces r1.2.1 r1.2.2 = deck_faces r2.2.1 r2.2.2 ∧
  (deck_view h1 d1 = deck_view h2 d2 →
   deck_view r1.2.1 r1.2.2 = deck_view r2.2.1 r2.2.2).
Proof.
  intros Hwf1 Hwf2 Hf r1 r2.
  pose proof (shuffle_view s h1 d1 Hwf1) as E1.
  pose proof (shuffle_view s h2 d2 Hwf2) as E2.
  simpl in E1, E2. fold r1 in E1. fold r2 in E2.
  destruct (shuffle_cards_faces s _ _ Hf) as [Ho Hfaces].
  rewrite <- E1, <- E2 in Ho, Hfaces. simpl in Ho, Hfaces.
  split; [done|]. split; [done|].
  intros Hv. rewrite Hv in E1. rewrite <- E2 in E1. by inversion E1.
Qed.

(** *** Counting reversed cards *)

Lemma filter_all {A} (P : A → Prop) `{∀ x, Decision (P x)} (l : list A) :
  Forall P l → filter P l = l.
Proof.
  induction 1 as [|x l Hx _ IH]; [done|].
  by rewrite filter_cons_True, IH.
Qed.

Lemma filter_none {A} (P : A → Prop) `{∀ x, Decision (P x)} (l : list A) :
  Forall (λ x, ¬ P x) l ↔ filter P l = [].
Proof.
  induction l as [|x l IH]; [done|]. rewrite Forall_cons, filter_cons.
  destruct (decide (P x)); [|tauto]. split; [tauto|done].
Qed.

Lemma reversed_count_perm h d d' :
  d ≡ₚ d' → reversed_count h d = reversed_count h d'.
Proof. intros Hp. unfold reversed_count, deck_view. by rewrite Hp. Qed.

Lemma reversed_count_toggle_upright n cs :
  Forall (λ c, ¬ is_rev c = true) cs →
  length (filter (λ c, is_rev c = true) (toggle_first n cs))
  = n `min` length cs.
Proof.
  intros Hup. unfold toggle_first. rewrite filter_app, length_app.
  rewrite filter_all.
  - rewrite (proj1 (filter_none _ _)) by by apply Forall_drop.
    rewrite length_fmap, length_take. simpl. lia.
  - apply Forall_fmap, Forall_take. eapply Forall_impl; [exact Hup|].
    intros c Hc. simpl in *. destruct (is_rev c); [by destruct Hc|done].
Qed.

(** C7 (as the code has it). When the deck is well-formed and holds at
    least [n] cards, [n] being the number drawn in
    [[MIN_REV, MAX_REV]], the shuffle completes; the store after it is
    the store before with exactly the first [n] cards of the once
    permuted deck toggled, every other card object untouched; the
    second permutation only reorders. The number of reversed cards
    after the shuffle is therefore [n], within [[MIN_REV, MAX_REV]],
    when every card was upright before. *)
Theorem shuffle_toggles_first_n s h d :
  deck_wf h d →
  let n := (randint MIN_REV MAX_REV (seed_rng s)).1 in
  let d1 := (random_shuffle d (randint MIN_REV MAX_REV (seed_rng s)).2).1 in
  n ≤ length d →
  ∃ h' d2,
    TrDeck_shuffle s (h, d) = (Done, (h', d2)) ∧
    MIN_REV ≤ n ≤ MAX_REV ∧
    d1 ≡ₚ d ∧ d2 ≡ₚ d1 ∧
    (∀ l, h' !! l = if decide (l ∈ take n d1)
                    then toggle_rev <$> h !! l else h !! l) ∧
    (reversed_count h d = 0 →
     reversed_count h' d2 = n ∧ MIN_REV ≤ reversed_count h' d2 ≤ MAX_REV).
Proof.
  intros Hwf. cbv zeta.
  pose proof (randint_range MIN_REV MAX_REV (seed_rng s)
                ltac:(unfold MIN_REV, MAX_REV; lia)) as Hrange.
  unfold TrDeck_shuffle.
  destruct (randint MIN_REV MAX_REV (seed_rng s)) as [n g1]. simpl in *.
  pose proof (random_shuffle_perm d g1) as Hp1.
  destruct (random_shuffle d g1) as [d1 g2]. simpl in *. intros Hn.
  assert (deck_wf h d1) as Hwf1 by (eapply deck_wf_perm; [symmetry|]; done).
  rewrite for_each_toggle by lia. rewrite drop_0.
  assert (n ≤ length d1) as Hn1 by by rewrite Hp1.
  rewrite decide_True by lia.
  pose proof (random_shuffle_perm d1 g2) as Hp2.
  destruct (random_shuffle d1 g2) as [d2 g3]. simpl in *.
  exists (toggle_all (take n d1) h), d2.
  split; [done|]. split; [done|]. split; [done|]. split; [done|].
  split.
  - intros l. apply toggle_all_lookup.
    eapply sublist_NoDup; [apply Hwf1|apply sublist_take].
  - intros Hup.
    assert (reversed_count (toggle_all (take n d1) h) d2 = n) as ->; [|done].
    rewrite (reversed_count_perm _ d2 d1) by done.
    unfold reversed_count. rewrite deck_view_toggle by done.
    rewrite reversed_count_toggle_upright.
    + unfold deck_view. rewrite length_fmap. lia.
    + rewrite (reversed_count_perm _ d d1) in Hup by done.
      apply (proj2 (filter_none (λ c, is_rev c = true) _)).
      by apply nil_length_inv.
Qed.

(** *** A shuffle as a replay of its draws *)

Lemma reorder_seq (d : list loc) : reorder (seq 0 (length d)) d = d.
Proof.
  apply list_eq. intros i. unfold reorder. rewrite list_lookup_fmap.
  destruct (decide (i < length d)) as [Hi|Hi].
  - rewrite lookup_seq_lt by done. simpl.
    by rewrite <- list_lookup_lookup_total_lt.
  - rewrite lookup_seq_ge by lia. simpl. symmetry.
    apply lookup_ge_None. lia.
Qed.

Lemma random_shuffle_reorder (d : list loc) g :
  random_shuffle d g
  = (reorder (random_shuffle (seq 0 (length d)) g).1 d,
     (random_shuffle (seq 0 (length d)) g).2).
Proof.
  transitivity (random_shuffle (reorder (seq 0 (length d)) d) g).
  - by rewrite reorder_seq.
  - unfold reorder. apply random_shuffle_fmap.
Qed.

Lemma shuffle_as_replay s h d :
  TrDeck_shuffle s (h, d) = replay (shuffle_draws s (length d)) (h, d).
Proof.
  unfold TrDeck_shuffle, shuffle_draws, replay.
  destruct (randint MIN_REV MAX_REV (seed_rng s)) as [n g1].
  rewrite (random_shuffle_reorder d g1).
  pose proof (random_shuffle_length (seq 0 (length d)) g1) as Hlen.
  destruct (random_shuffle (seq 0 (length d)) g1) as [p1 g2]. simpl in *.
  rewrite length_seq in Hlen.
  rewrite (random_shuffle_reorder (reorder p1 d) g2).
  replace (length (reorder p1 d)) with (length d)
    by (unfold reorder; by rewrite length_fmap).
  destruct (random_shuffle (seq 0 (length d)) g2) as [p2 g3]. simpl.
  by destruct (for_each (toggle_at (reorder p1 d)) (seq 0 n) h) as [[|e] h'].
Qed.

(** C8 (as the code has it). Calling [shuffle] again with the same seed
    replays the same draws, the number [n] of cards to toggle and the
    two permutations of positions, which depend on the seed and on the
    size of the deck only; each call applies them to the deck as it
    finds it. The second call therefore permutes and toggles the
    already shuffled deck once more. *)
Theorem shuffle_replays_draws s h d :
  let draws := shuffle_draws s (length d) in
  let r1 := TrDeck_shuffle s (h, d) in
  let r2 := TrDeck_shuffle s r1.2 in
  r1 = replay draws (h, d) ∧ r2 = replay draws r1.2.
Proof.
  intros draws r1 r2. split; [apply shuffle_as_replay|].
  unfold r2, draws.
  destruct (shuffle_store_and_deck s h d) as (ls & _ & Hperm).
  fold r1 in Hperm. rewrite <- Hperm.
  destruct r1 as [o [h1 d1]]. apply shuffle_as_replay.
Qed.

End shuffle_props.

(** ** The shuffle on concrete decks *)

(** Closed decidable facts, by evaluation. *)
Ltac by_compute := refine (bool_decide_unpack _ _); vm_compute; exact I.

(** The six cards in two decks, shuffled with the same seed: one
    freshly loaded under the references 1 to 6, the other one dealt
    and annotated (its cards have regions and one has a note), under
    the references 0 to 5. *)
Lemma shuffle_deterministic_witness :
  let h1 := six_deck'.1 in
  let d1 := six_deck'.2 in
  let h2 := cards six_annotated in
  let d2 := tr_deck six_annotated in
  let r1 := @TrDeck_shuffle lcg_source demo_seed (h1, d1) in
  let r2 := @TrDeck_shuffle lcg_source demo_seed (h2, d2) in
  d1 ≠ d2 ∧ deck_view h1 d1 ≠ deck_view h2 d2 ∧
  r1.1 = r2.1 ∧ deck_faces r1.2.1 r1.2.2 = deck_faces r2.2.1 r2.2.2.
Proof.
  split; [by vm_compute|]. split; [by vm_compute|].
  destruct (@shuffle_deterministic lcg_source demo_seed
              six_deck'.1 six_deck'.2
              (cards six_annotated) (tr_deck six_annotated))
    as (Ho & Hfaces & _).
  - by_compute.
  - by_compute.
  - by vm_compute.
  - split; [exact Ho|exact Hfaces].
Defined.

(** The six-card deck and a seed that draws [n = 3]: the first
    permutation gives [[0; 5; 3; 4; 2; 1]], so cards 0, 5 and 3 are
    the ones toggled. *)
Lemma shuffle_toggles_first_n_witness :
  ∃ h' d2,
    @TrDeck_shuffle lcg_source demo_seed six_deck = (Done, (h', d2)) ∧
    MIN_REV ≤ 3 ≤ MAX_REV ∧
    [0; 5; 3; 4; 2; 1] ≡ₚ six_deck.2 ∧ d2 ≡ₚ [0; 5; 3; 4; 2; 1] ∧
    (∀ l, h' !! l = if decide (l ∈ take 3 [0; 5; 3; 4; 2; 1])
                    then toggle_rev <$> six_deck.1 !! l
                    else six_deck.1 !! l) ∧
    (reversed_count six_deck.1 six_deck.2 = 0 →
     reversed_count h' d2 = 3 ∧ MIN_REV ≤ reversed_count h' d2 ≤ MAX_REV).
Proof.
  apply (@shuffle_toggles_first_n lcg_source demo_seed six_deck.1 six_deck.2).
  - by_compute.
  - vm_compute. lia.
Defined.

(** C7, as stated, fails: flags are toggled, never reset. A fresh deck
    of 78 upright cards shuffled once holds 32 reversed cards; shuffled
    a second time it holds 43, more than [MAX_REV]. *)
Lemma reversed_count_exceeds_MAX_REV :
  let r1 := @TrDeck_shuffle lcg_source "What now?2021-04-07 12:00:00"
              full_deck in
  let r2 := @TrDeck_shuffle lcg_source "Love2021-04-07 12:05:00" r1.2 in
  deck_wf full_deck.1 full_deck.2 ∧
  reversed_count full_deck.1 full_deck.2 = 0 ∧
  r1.1 = Done ∧ reversed_count r1.2.1 r1.2.2 = 32 ∧
  r2.1 = Done ∧ reversed_count r2.2.1 r2.2.2 = 43 ∧
  ¬ (MIN_REV ≤ reversed_count r2.2.1 r2.2.2 ≤ MAX_REV).
Proof.
  cbv zeta. split; [by_compute|].
  repeat split; try (vm_compute; reflexivity).
  intros [_ Hle]. vm_compute in Hle. lia.
Qed.

(** C8, as stated, fails: the second call with the same seed leaves
    the six-card deck in another order and with other flags than the
    first call did. *)
Lemma second_shuffle_differs :
  let r1 := @TrDeck_shuffle lcg_source demo_seed six_deck in
  let r2 := @TrDeck_shuffle lcg_source demo_seed r1.2 in
  r1.1 = Done ∧ r2.1 = Done ∧
  r1.2.2 = [4; 2; 0; 5; 3; 1] ∧ r2.2.2 = [3; 0; 4; 1; 5; 2] ∧
  is_rev <$> deck_view r1.2.1 r1.2.2
    = [false; false; true; true; true; false] ∧
  is_rev <$> deck_view r2.2.1 r2.2.2
    = [true; true; true; true; false; false] ∧
  deck_view r2.2.1 r2.2.2 ≠ deck_view r1.2.1 r1.2.2.
Proof.
  cbv zeta. repeat split; try (vm_compute; reflexivity).
  vm_compute. discriminate.
Qed.

(** ** Dealing a spread *)

Lemma deal_card_place cfg i w e :
  cfg !! i = Some e →
  deal_card cfg i w
  = match tr_deck w !! i with
    | Some c => (Done, place_entry w (e, c))
    | None => (Raised IndexError, w)
    end.
Proof.
  intros He. unfold deal_card. rewrite He. destruct e as [[col row] label].
  by destruct (tr_deck w !! i).
Qed.

Lemma place_entry_tr_deck w ec : tr_deck (place_entry w ec) = tr_deck w.
Proof. done. Qed.

(** The deal loop places the configured positions on the deck's cards
    pairwise, as far as both lists go. *)
Lemma deal_loop cfg k i w :
  i + k ≤ length cfg → i ≤ length (tr_deck w) →
  for_each (deal_card cfg) (seq i k) w
  = (if decide (i + k ≤ length (tr_deck w)) then Done else Raised IndexError,
     foldl place_entry w (zip (take k (drop i cfg)) (drop i (tr_deck w)))).
Proof.
  revert i w. induction k as [|k IH]; intros i w Hk Hi.
  - simpl. by rewrite decide_True by lia.
  - destruct (lookup_lt_is_Some_2 cfg i ltac:(lia)) as [e He].
    simpl. rewrite (deal_card_place _ _ _ _ He), (drop_S _ _ _ He).
    destruct (tr_deck w !! i) as [c|] eqn:Ec.
    + apply lookup_lt_Some in Ec as Hlt.
      rewrite IH by (rewrite ?place_entry_tr_deck; lia).
      rewrite place_entry_tr_deck, (drop_S _ _ _ Ec).
      simpl. f_equal. destruct (decide (S (i + k) ≤ length (tr_deck w))),
        (decide (i + S k ≤ length (tr_deck w))); try done; lia.
    + apply lookup_ge_None in Ec.
      rewrite decide_False by lia.
      by rewrite (drop_ge (tr_deck w)) by lia.
Qed.

Lemma placed_tr_sprd (zs : list (PosEntry * loc)) w :
  tr_sprd (foldl place_entry w zs) = tr_sprd w ++ zs.*2.
Proof.
  revert w. induction zs as [|z l IH]; intros w; simpl.
  - by rewrite app_nil_r.
  - rewrite IH. simpl. by rewrite <- app_assoc.
Qed.

Lemma placed_frame (zs : list (PosEntry * loc)) w :
  let w' := foldl place_entry w zs in
  tr_deck w' = tr_deck w ∧ tr_qry w' = tr_qry w ∧
  tr_datetime w' = tr_datetime w ∧ sprd_name w' = sprd_name w ∧
  at_card_ix w' = at_card_ix w ∧ strv_sprd w' = strv_sprd w ∧
  strv_note w' = strv_note w ∧ btn_quit_enabled w' = btn_quit_enabled w ∧
  note_popups w' = note_popups w ∧ length (cards w') = length (cards w).
Proof.
  revert w. induction zs as [|z l IH]; intros w; simpl; [done|].
  destruct (IH (place_entry w z)) as (?&?&?&?&?&?&?&?&?&Hlen).
  repeat split; try done. rewrite Hlen. simpl. apply length_alter.
Qed.

Lemma placed_other (zs : list (PosEntry * loc)) w c :
  c ∉ zs.*2 → cards (foldl place_entry w zs) !! c = cards w !! c.
Proof.
  revert w. induction zs as [|z l IH]; intros w Hc; simpl; [done|].
  rewrite fmap_cons, not_elem_of_cons in Hc. destruct Hc as [Hne Hc].
  rewrite IH by done. simpl. by rewrite list_lookup_alter_ne.
Qed.

Lemma placed_region (zs : list (PosEntry * loc)) w e c :
  NoDup zs.*2 → (e, c) ∈ zs → c < length (cards w) →
  let card := cards (foldl place_entry w zs) !!! c in
  min_coord card = (entry_region e).1 ∧ max_coord card = (entry_region e).2 ∧
  is_rev card = is_rev (cards w !!! c) ∧
  card_ident card = card_ident (cards w !!! c).
Proof.
  revert w. induction zs as [|z l IH]; intros w Hnd Hin Hlive; simpl.
  - by apply elem_of_nil in Hin.
  - rewrite fmap_cons in Hnd. apply NoDup_cons in Hnd as [Hz Hnd].
    apply elem_of_cons in Hin as [<-|Hin].
    + rewrite !list_lookup_total_alt, placed_other by done. simpl.
      rewrite list_lookup_alter, decide_True by done.
      destruct (lookup_lt_is_Some_2 (cards w) c Hlive) as [card Hcard].
      by rewrite Hcard.
    + destruct (IH (place_entry w z) Hnd Hin) as (Hmin & Hmax & Hrev & Hid).
      { simpl. by rewrite length_alter. }
      split; [done|]. split; [done|].
      assert (z.2 ≠ c) as Hne.
      { intros <-. apply Hz. apply list_elem_of_fmap. by exists (e, z.2). }
      rewrite Hrev, Hid. simpl.
      by rewrite list_lookup_total_alter_ne.
Qed.

Lemma zip_snd_take {A B} (l : list A) (k : list B) :
  (zip l k).*2 = take (length l) k.
Proof.
  revert k. induction l as [|x l IH]; intros [|y k]; simpl; try done.
  by rewrite IH.
Qed.

Lemma deal_all_placed cfg w :
  deal_all cfg w
  = (if decide (length cfg ≤ length (tr_deck w)) then Done
     else Raised IndexError,
     foldl place_entry w (zip cfg (tr_deck w))).
Proof.
  unfold deal_all. rewrite (deal_loop cfg (length cfg) 0 w); [|lia..].
  by rewrite !drop_0, firstn_all.
Qed.

(** What a deal leaves behind, whether it completes or not. *)
Lemma deal_all_state cfg w :
  let w' := (deal_all cfg w).2 in
  tr_sprd w' = tr_sprd w ++ take (length cfg) (tr_deck w) ∧
  tr_deck w' = tr_deck w ∧ sprd_name w' = sprd_name w ∧
  btn_quit_enabled w' = btn_quit_enabled w ∧
  length (cards w') = length (cards w) ∧
  (deck_wf (cards w) (tr_deck w) →
   ∀ i e c, cfg !! i = Some e → tr_deck w !! i = Some c →
     min_coord (cards w' !!! c) = (entry_region e).1 ∧
     max_coord (cards w' !!! c) = (entry_region e).2 ∧
     is_rev (cards w' !!! c) = is_rev (cards w !!! c) ∧
     card_ident (cards w' !!! c) = card_ident (cards w !!! c)).
Proof.
  rewrite deal_all_placed. simpl.
  destruct (placed_frame (zip cfg (tr_deck w)) w)
    as (Hdeck & _ & _ & Hname & _ & _ & _ & Hbtn & _ & Hlen).
  rewrite placed_tr_sprd, zip_snd_take.
  repeat split; try done.
  all: destruct H as [Hnd Hlive]; rewrite Forall_forall in Hlive.
  all: eapply (placed_region (zip cfg (tr_deck w)) w e c);
    [ rewrite zip_snd_take; eapply sublist_NoDup; [done|apply sublist_take]
    | apply list_elem_of_lookup; exists i; apply lookup_zip_with_Some; eauto
    | apply Hlive, list_elem_of_lookup; eauto ].
Qed.

Lemma entry_region_corners (col row : Q) (label : string) :
  ∃ max_x max_y,
    entry_region (col, row, label)
    = ((Some (col * CELL_W + CELL_PAD)%Q, Some (row * CELL_H + CELL_PAD)%Q),
       (Some max_x, Some max_y)) ∧
    (max_x == (col * CELL_W + CELL_PAD) + (CELL_W - 2 * CELL_PAD))%Q ∧
    (max_y == (row * CELL_H + CELL_PAD) + (CELL_H - 2 * CELL_PAD))%Q.
Proof. eexists _, _. split; [reflexivity|]. split; ring. Qed.

(** A deal during which no other callback runs, from a well-formed
    deck that holds at least as many cards as the chosen spread
    definition has entries, completes; it appends to the placements
    the spread already has, in order, the first cards of the deck (the
    deck itself is left as it was); and the card dealt for entry [i] =
    (col, row, label) carries the region with origin (col * cellWidth
    + cellPad, row * cellHeight + cellPad) and far corner origin +
    (cellWidth - 2 cellPad, cellHeight - 2 cellPad), written on the
    card object itself. *)
Lemma show_spread_lockstep w cfg :
  SPREAD_DEFN !! strv_sprd w = Some cfg →
  deck_wf (cards w) (tr_deck w) →
  length cfg ≤ length (tr_deck w) →
  ∃ w',
    show_spread w = (Done, w') ∧
    tr_deck w' = tr_deck w ∧
    tr_sprd w' = tr_sprd w ++ take (length cfg) (tr_deck w) ∧
    ∀ i col row label c,
      cfg !! i = Some (col, row, label) → tr_deck w !! i = Some c →
      tr_sprd w' !! (length (tr_sprd w) + i) = Some c ∧
      ∃ max_x max_y,
        min_coord (cards w' !!! c)
        = (Some (col * CELL_W + CELL_PAD)%Q,
           Some (row * CELL_H + CELL_PAD)%Q) ∧
        max_coord (cards w' !!! c) = (Some max_x, Some max_y) ∧
        (max_x == (col * CELL_W + CELL_PAD) + (CELL_W - 2 * CELL_PAD))%Q ∧
        (max_y == (row * CELL_H + CELL_PAD) + (CELL_H - 2 * CELL_PAD))%Q.
Proof.
  intros Hcfg Hwf Hlen. unfold show_spread. rewrite Hcfg.
  pose proof (deal_all_state cfg (with_sprd_name (strv_sprd w) w)) as Hst.
  rewrite deal_all_placed in *. simpl in Hst.
  rewrite decide_True by done.
  destruct Hst as (Hsp & Hdk & _ & _ & _ & Hreg).
  eexists. split; [reflexivity|]. simpl. split; [done|]. split; [done|].
  intros i col row label c He Hc. split.
  - rewrite Hsp, lookup_app_r by lia.
    replace (length (tr_sprd w) + i - length (tr_sprd w)) with i by lia.
    apply lookup_lt_Some in He as Hi.
    rewrite lookup_take, decide_True by lia. done.
  - destruct (Hreg Hwf i _ c He Hc) as (Hmin & Hmax & _).
    destruct (entry_region_corners col row label) as (mx & my & E & Hx & Hy).
    exists mx, my. rewrite Hmin, Hmax, E. done.
Qed.


(** ** The invariants hold in every session

    [deck_wf] and [spread_placed], the two conditions the properties
    below rely on, hold of the deck [fill_deck] builds and are kept by
    shuffling and dealing. *)

Lemma fill_deck_wf rows h d :
  deck_wf h d → deck_wf (fill_deck rows (h, d)).1 (fill_deck rows (h, d)).2.
Proof.
  revert h d. induction rows as [|[[[cnm ccd] kwu] kwr] rows IH];
    intros h d [Hnd Hlive]; [done|].
  apply IH. split.
  - apply NoDup_app. split; [done|]. split; [|apply NoDup_singleton].
    intros l Hl ->%list_elem_of_singleton.
    rewrite Forall_forall in Hlive. specialize (Hlive _ Hl). lia.
  - rewrite length_app. simpl. apply Forall_app. split.
    + eapply Forall_impl; [exact Hlive|]. simpl. lia.
    + apply Forall_singleton. lia.
Qed.

Lemma WinTr_init_wf rows now :
  deck_wf (cards (WinTr_init rows now)) (tr_deck (WinTr_init rows now)) ∧
  spread_placed (WinTr_init rows now).
Proof.
  unfold WinTr_init.
  pose proof (fill_deck_wf rows [] []) as Hwf.
  destruct (fill_deck rows ([], [])) as [h d]. simpl in *.
  split; [|by apply Forall_nil].
  apply Hwf. split; [apply NoDup_nil_2|apply Forall_nil_2].
Qed.

Lemma place_entry_placed w ec :
  ec.2 < length (cards w) → spread_placed w → spread_placed (place_entry w ec).
Proof.
  intros Hlive Hpl. unfold spread_placed, place_entry in *. simpl.
  apply Forall_app. split.
  - eapply Forall_impl; [exact Hpl|]. intros c Hc. simpl in *.
    rewrite list_lookup_total_alter. case_decide; [|done].
    unfold card_placed, entry_region. destruct ec as [[[col row] label] c'].
    simpl. eauto 10.
  - apply Forall_singleton.
    rewrite list_lookup_total_alter, decide_True by done.
    unfold card_placed, entry_region. destruct ec as [[[col row] label] c].
    simpl. eauto 10.
Qed.

Lemma show_spread_keeps_invariants w :
  deck_wf (cards w) (tr_deck w) → spread_placed w →
  deck_wf (cards (show_spread w).2) (tr_deck (show_spread w).2) ∧
  spread_placed (show_spread w).2.
Proof.
  intros Hwf Hpl. unfold show_spread.
  destruct (SPREAD_DEFN !! strv_sprd w) as [cfg|]; [|done].
  rewrite deal_all_placed.
  assert (∀ zs w0, deck_wf (cards w0) (tr_deck w0) → spread_placed w0 →
            Forall (λ z : Q * Q * string * nat, z.2 < length (cards w0)) zs →
            deck_wf (cards (foldl place_entry w0 zs))
                    (tr_deck (foldl place_entry w0 zs)) ∧
            spread_placed (foldl place_entry w0 zs)) as Hloop.
  { induction zs as [|z zs IH]; intros w0 Hwf0 Hpl0 Hzs; [done|].
    apply Forall_cons in Hzs as [Hz Hzs]. simpl. apply IH.
    - eapply deck_wf_store; [|exact Hwf0]. simpl. apply length_alter.
    - by apply place_entry_placed.
    - simpl. by rewrite length_alter. }
  destruct (Hloop (zip cfg (tr_deck w)) (with_sprd_name (strv_sprd w) w))
    as [Hwf' Hpl']; try done.
  { apply Forall_forall. intros [e c] Hin. simpl.
    destruct Hwf as [_ Hlive]. rewrite Forall_forall in Hlive.
    apply Hlive. apply list_elem_of_lookup in Hin as [i Hi].
    apply lookup_zip_with_Some in Hi as (? & ? & ? & ? & Hc). simplify_eq.
    apply list_elem_of_lookup. eauto. }
  by case_decide.
Qed.

(** ** Clicking on the canvas *)

Lemma Qltb_lt a b : Qltb a b = true ↔ (a < b)%Q.
Proof. unfold Qltb, Qlt. apply Z.ltb_lt. Qed.

Lemma point_in_card_true x y c :
  point_in_card x y c = Some true ↔ region_contains x y c.
Proof.
  unfold point_in_card, region_contains, py_gt, py_lt.
  destruct (min_coord c) as [[min_x|] [min_y|]],
           (max_coord c) as [[max_x|] [max_y|]]; simpl.
  all: repeat match goal with
       | |- context [Qltb ?a ?b] =>
           let E := fresh "E" in
           destruct (Qltb a b) eqn:E; simpl;
           [apply Qltb_lt in E
           |assert (¬ (a < b)%Q) by (rewrite <- Qltb_lt; congruence); clear E]
       end.
  all: split; [try done|];
       try (intros (? & ? & ? & ? & ? & ? & ? & ? & ? & ?);
            simplify_eq; done).
  intros _. by eexists _, _, _, _.
Qed.

Lemma point_in_card_placed x y c :
  card_placed c → is_Some (point_in_card x y c).
Proof.
  unfold card_placed, point_in_card, py_gt, py_lt.
  destruct (min_coord c) as [o1 o2], (max_coord c) as [o3 o4]. simpl.
  intros ([a ->] & [b ->] & [a' ->] & [b' ->]). simpl.
  repeat (match goal with |- context [Qltb ?a ?b] =>
                            destruct (Qltb a b) end; simpl); eauto.
Qed.

Lemma hit_true x y h sprd i :
  hit x y h sprd i = true
  ↔ ∃ c, sprd !! i = Some c ∧ region_contains x y (h !!! c).
Proof.
  unfold hit. destruct (sprd !! i) as [c|].
  - rewrite bool_decide_eq_true, point_in_card_true. split; [eauto|].
    by intros (c' & [= <-] & Hin).
  - split; [done|]. by intros (c & Hc & _).
Qed.

Lemma click_card_step x y w i :
  spread_placed w → i < length (tr_sprd w) →
  click_card x y i w = (Done, click_step x y w i).
Proof.
  intros Hpl Hi. unfold click_card, click_step, hit.
  destruct (lookup_lt_is_Some_2 _ _ Hi) as [c Hc]. rewrite Hc.
  unfold spread_placed in Hpl. rewrite Forall_lookup in Hpl.
  destruct (point_in_card_placed x y _ (Hpl i c Hc)) as [[|] Hb];
    rewrite Hb; [|done].
  rewrite bool_decide_eq_true_2 by done.
  unfold popup_card_note. simpl. by rewrite Hc.
Qed.

Lemma click_step_frame x y w i :
  cards (click_step x y w i) = cards w ∧
  tr_sprd (click_step x y w i) = tr_sprd w.
Proof. unfold click_step. by destruct (hit _ _ _ _ _). Qed.

Lemma click_loop x y w (range : list nat) :
  spread_placed w → Forall (λ i, i < length (tr_sprd w)) range →
  for_each (click_card x y) range w = (Done, foldl (click_step x y) w range).
Proof.
  revert w. induction range as [|i range IH]; intros w Hpl Hr; [done|].
  apply Forall_cons in Hr as [Hi Hr]. simpl.
  rewrite click_card_step by done.
  destruct (click_step_frame x y w i) as [Hc Hs].
  apply IH.
  - unfold spread_placed. by rewrite Hc, Hs.
  - by rewrite Hs.
Qed.

Lemma click_result_cons w i hs :
  click_result
    (with_note_popups (note_popups w ++ [i]) (with_at_card_ix (Some i) w)) hs
  = click_result w (i :: hs).
Proof.
  unfold click_result. rewrite last_cons.
  destruct (last hs) as [j|] eqn:E; destruct w; simpl.
  - unfold with_note_popups, with_at_card_ix. simpl.
    by rewrite <- app_assoc.
  - by apply last_None in E as ->.
Qed.

Lemma click_steps x y w (range : list nat) :
  foldl (click_step x y) w range
  = click_result w (filter (λ i, hit x y (cards w) (tr_sprd w) i) range).
Proof.
  revert w. induction range as [|i range IH]; intros w; [done|].
  simpl. rewrite IH.
  destruct (click_step_frame x y w i) as [-> ->].
  rewrite filter_cons. unfold click_step.
  destruct (hit x y (cards w) (tr_sprd w) i) eqn:Eh.
  - simpl. apply click_result_cons.
  - done.
Qed.

Lemma on_click_result x y w :
  spread_placed w → on_click x y w = (Done, click_result w (hits x y w)).
Proof.
  intros Hpl. unfold on_click, hits. rewrite click_loop, click_steps; try done.
  apply Forall_forall. intros i Hi. apply elem_of_seq in Hi. lia.
Qed.

Lemma hits_elem x y w i :
  i ∈ hits x y w
  ↔ ∃ c, tr_sprd w !! i = Some c ∧ region_contains x y (cards w !!! c).
Proof.
  unfold hits. rewrite list_elem_of_filter, elem_of_seq, Is_true_true, hit_true.
  split; [by intros [Hhit _]|]. intros (c & Hc & Hin). split; [eauto|].
  apply lookup_lt_Some in Hc. lia.
Qed.

Lemma hits_last x y w i :
  i ∈ hits x y w → (∀ j, j ∈ hits x y w → j ≤ i) →
  last (hits x y w) = Some i.
Proof.
  intros Hi Hmax. pose proof Hi as Hin.
  unfold hits in Hi. apply list_elem_of_filter in Hi as [Hhit Hlt].
  apply elem_of_seq in Hlt.
  assert (length (tr_sprd w) = i + (1 + (length (tr_sprd w) - S i)))
    as Hsplit by lia.
  unfold hits in *. rewrite Hsplit, !seq_app, !filter_app in *.
  simpl seq in *. rewrite filter_cons_True, filter_nil in * by done.
  assert (filter (λ i0, hit x y (cards w) (tr_sprd w) i0)
            (seq (i + 1) (length (tr_sprd w) - S i)) = []) as E.
  { apply (proj1 (filter_none _ _)). apply Forall_forall. intros j Hj Hhj.
    apply elem_of_seq in Hj.
    assert (j ≤ i); [|lia]. apply Hmax.
    rewrite !elem_of_app. right. right.
    apply list_elem_of_filter. split; [done|]. apply elem_of_seq. lia. }
  rewrite E. simpl. apply last_snoc.
Qed.

(** C4 (as the code has it). On a spread whose cards all carry a
    region, a click completes without error and changes neither the
    cards nor the spread. It opens the note popup of every placement
    whose region strictly contains the point, in increasing index
    order. When no region contains the point nothing is selected: the
    session is unchanged. When some region does, the index left in
    [at_card_ix] is that of the last, highest-index, placement
    containing the point, which is the only one when regions do not
    overlap. *)
Theorem on_click_selects x y w :
  spread_placed w →
  ∃ w',
    on_click x y w = (Done, w') ∧
    cards w' = cards w ∧ tr_sprd w' = tr_sprd w ∧
    note_popups w' = note_popups w ++ hits x y w ∧
    (∀ i, i ∈ hits x y w
          ↔ ∃ c, tr_sprd w !! i = Some c
                 ∧ region_contains x y (cards w !!! c)) ∧
    ((∀ i c, tr_sprd w !! i = Some c →
             ¬ region_contains x y (cards w !!! c)) → w' = w) ∧
    (∀ i c, tr_sprd w !! i = Some c →
       region_contains x y (cards w !!! c) →
       (∀ j c', i < j → tr_sprd w !! j = Some c' →
                ¬ region_contains x y (cards w !!! c')) →
       at_card_ix w' = Some i).
Proof.
  intros Hpl. exists (click_result w (hits x y w)).
  split; [by apply on_click_result|].
  assert (∀ i, i ∈ hits x y w
               ↔ ∃ c, tr_sprd w !! i = Some c
                      ∧ region_contains x y (cards w !!! c)) as Hel
    by apply hits_elem.
  repeat split.
  - unfold click_result. by destruct (last (hits x y w)).
  - unfold click_result. by destruct (last (hits x y w)).
  - unfold click_result. destruct (last (hits x y w)) eqn:E; [done|].
    apply last_None in E. by rewrite E, app_nil_r.
  - apply Hel.
  - apply Hel.
  - intros Hnone. unfold click_result.
    destruct (last (hits x y w)) as [i|] eqn:E; [|done].
    apply last_Some_elem_of, Hel in E as (c & Hc & Hin).
    by destruct (Hnone i c).
  - intros i c Hc Hin Hlast.
    unfold click_result. rewrite (hits_last x y w i).
    + done.
    + apply Hel. eauto.
    + intros j (c' & Hc' & Hin')%Hel.
      destruct (decide (j ≤ i)) as [|Hgt]; [done|].
      destruct (Hlast j c'); [lia|done..].
Qed.

(** ** Every session satisfies the invariants *)

Lemma spread_placed_coords w w' :
  tr_sprd w' = tr_sprd w →
  (∀ c, min_coord (cards w' !!! c) = min_coord (cards w !!! c) ∧
        max_coord (cards w' !!! c) = max_coord (cards w !!! c)) →
  spread_placed w → spread_placed w'.
Proof.
  intros Hs Hc Hpl. unfold spread_placed, card_placed in *. rewrite Hs.
  eapply Forall_impl; [exact Hpl|]. intros c. simpl.
  by destruct (Hc c) as [-> ->].
Qed.

Section sessions.
Context `{RandomSource}.

Lemma popup_shuffle_keeps_invariants now w :
  deck_wf (cards w) (tr_deck w) → spread_placed w →
  deck_wf (cards (popup_shuffle now w).2) (tr_deck (popup_shuffle now w).2) ∧
  spread_placed (popup_shuffle now w).2.
Proof.
  intros Hwf Hpl. unfold popup_shuffle.
  change (tr_qry (with_tr_datetime now w)) with (tr_qry w).
  change (tr_datetime (with_tr_datetime now w)) with now.
  change (cards (with_tr_datetime now w)) with (cards w).
  change (tr_deck (with_tr_datetime now w)) with (tr_deck w).
  destruct (tr_qry w) as [qry|]; [|done].
  pose proof (shuffle_keeps_wf (qry +:+ now) _ _ Hwf) as Hwf'.
  destruct (shuffle_store_and_deck (qry +:+ now) (cards w) (tr_deck w))
    as (ls & Hh & _).
  destruct (TrDeck_shuffle (qry +:+ now) (cards w, tr_deck w))
    as [o [h d]]. simpl in *. split; [done|].
  eapply spread_placed_coords; [| |exact Hpl]; [done|]. simpl.
  intros c. subst h.
  split; apply attr_lookup_total, toggle_all_attr; by intros [].
Qed.

Lemma popup_note_close_keeps_invariants w :
  deck_wf (cards w) (tr_deck w) → spread_placed w →
  deck_wf (cards (popup_note_close w).2) (tr_deck (popup_note_close w).2) ∧
  spread_placed (popup_note_close w).2.
Proof.
  intros Hwf Hpl. unfold popup_note_close.
  destruct (at_card_ix w) as [ix|]; [|done].
  destruct (tr_sprd w !! ix) as [c|]; [|done]. simpl. split.
  - eapply deck_wf_store; [|exact Hwf]. apply length_alter.
  - eapply spread_placed_coords; [| |exact Hpl]; [done|]. simpl.
    intros c'. rewrite list_lookup_total_alter.
    case_decide as Hc; [by destruct Hc as [-> _]|done].
Qed.

Theorem reachable_invariants w :
  reachable w → deck_wf (cards w) (tr_deck w) ∧ spread_placed w.
Proof.
  induction 1 as [rows now|answer w _ IH|name w _ _ IH|now w _ [IH1 IH2]
                 |w _ [IH1 IH2]|x y w _ [IH1 IH2]|text w _ IH
                 |w _ [IH1 IH2]].
  - apply WinTr_init_wf.
  - exact IH.
  - exact IH.
  - by apply popup_shuffle_keeps_invariants.
  - by apply show_spread_keeps_invariants.
  - rewrite on_click_result by done. unfold click_result.
    by destruct (last (hits x y w)).
  - exact IH.
  - by apply popup_note_close_keeps_invariants.
Qed.

End sessions.

(** ** The session on concrete data *)

(** After one deal of the three-card spread, a click inside the first
    region selects placement 0. *)
Lemma on_click_selects_witness :
  ∃ w', on_click 100 300 (show_spread six_session).2 = (Done, w') ∧
        at_card_ix w' = Some 0 ∧ note_popups w' = [0].
Proof.
  destruct (on_click_selects 100 300 (show_spread six_session).2)
    as (w' & Hrun & _ & _ & Hpop & _ & _ & Hsel).
  - by_compute.
  - exists w'. split; [done|]. split.
    + apply (Hsel 0 0); [done| |].
      * apply point_in_card_true. by vm_compute.
      * intros j c' Hj Hc' Hin%point_in_card_true.
        destruct j as [|[|[|j]]]; [lia|..]; vm_compute in Hc'; simplify_eq;
          vm_compute in Hin; discriminate.
    + rewrite Hpop. by vm_compute.
Defined.

(** C4, as stated, fails: after two deals of the three-card spread the
    card of placement 0 is also placement 3, with the same region. A
    click inside that region hits both; the index selected is 3, the
    highest, not 0, the lowest. *)
Lemma on_click_selects_last_match :
  let w2 := (show_spread (show_spread six_session).2).2 in
  let r := on_click 100 300 w2 in
  tr_sprd w2 = [0; 1; 2; 0; 1; 2] ∧
  hit 100 300 (cards w2) (tr_sprd w2) 0 = true ∧
  hit 100 300 (cards w2) (tr_sprd w2) 3 = true ∧
  r.1 = Done ∧ note_popups r.2 = [0; 3] ∧
  at_card_ix r.2 = Some 3 ∧ at_card_ix r.2 ≠ Some 0.
Proof. cbv zeta. repeat split; try (vm_compute; reflexivity). by vm_compute. Qed.

(** A first deal of the three-card spread from the six cards, nothing
    else running meanwhile. *)
Lemma show_spread_lockstep_example :
  ∃ w',
    show_spread six_session = (Done, w') ∧
    tr_sprd w' = [0; 1; 2] ∧
    min_coord (cards w' !!! 1)
    = (Some ((3#2) * CELL_W + CELL_PAD)%Q, Some ((3#2) * CELL_H + CELL_PAD)%Q).
Proof.
  destruct (show_spread_lockstep six_session three_card_cfg)
    as (w' & Hrun & _ & Hsprd & Hreg).
  - by vm_compute.
  - by_compute.
  - vm_compute. lia.
  - exists w'. split; [done|]. split; [by rewrite Hsprd|].
    destruct (Hreg 1 (3#2)%Q (3#2)%Q "2. Present" 1 eq_refl eq_refl)
      as (_ & mx & my & Hmin & _).
    exact Hmin.
Defined.



(** Every completed deal makes the spread longer by the size of the
    definition. *)
Lemma show_spread_grows w cfg w' :
  SPREAD_DEFN !! strv_sprd w = Some cfg →
  show_spread w = (Done, w') →
  length (tr_sprd w') = length (tr_sprd w) + length cfg.
Proof.
  intros Hcfg. unfold show_spread. rewrite Hcfg.
  pose proof (deal_all_state cfg (with_sprd_name (strv_sprd w) w)) as Hst.
  rewrite deal_all_placed in *. simpl in Hst. destruct Hst as (Hsp & _).
  case_decide as Hlen; [|done]. simpl in Hlen. intros [= <-]. simpl.
  rewrite Hsp, length_app, length_take. lia.
Qed.

(** C9 fails on the code: the spread object is created once, in
    [WinTr.__init__], and [show_spread] only ever appends to it. Two
    deals of the three-card spread leave six placements. *)
Theorem second_deal_accumulates :
  let r1 := show_spread six_session in
  let r2 := show_spread r1.2 in
  SPREAD_DEFN !! strv_sprd six_session = Some three_card_cfg ∧
  r1.1 = Done ∧ tr_sprd r1.2 = [0; 1; 2] ∧
  r2.1 = Done ∧ tr_sprd r2.2 = [0; 1; 2; 0; 1; 2] ∧
  ¬ (length (tr_sprd r2.2) ≤ length three_card_cfg).
Proof.
  cbv zeta. repeat split; try (vm_compute; reflexivity).
  vm_compute. lia.
Qed.

(** ** Exporting the reading *)

Lemma sprd_config_not_local :
  bool_decide ("sprd_config" ∈ prompt_quit_locals) = false.
Proof. by vm_compute. Qed.

Lemma sprd_config_not_global : module_globals !! "sprd_config" = None.
Proof. by vm_compute. Qed.

(** C3. [sprd_config] is neither a local of [prompt_quit] nor a name
    bound at module level. So, whatever the session state, once a
    file name has been chosen the export never completes: if the file
    cannot be opened nothing is written; if it can, exactly the header
    row is written and evaluating the loop bound raises [NameError]. *)
Theorem prompt_quit_never_completes f_name can_open w :
  f_name ≠ "" →
  ("sprd_config" ∉ prompt_quit_locals) ∧
  (module_globals !! "sprd_config" = None) ∧
  ∃ e file,
    prompt_quit f_name can_open w = (Raised e, file) ∧
    (can_open = true →
     e = NameError "sprd_config" ∧ file = Some [header_row w]) ∧
    (can_open = false → e = OSError ∧ file = None).
Proof.
  intros Hname.
  split; [apply (proj1 (bool_decide_eq_false _)), sprd_config_not_local|].
  split; [apply sprd_config_not_global|].
  unfold prompt_quit, prompt_quit_in.
  rewrite bool_decide_eq_false_2 by done.
  rewrite sprd_config_not_local, sprd_config_not_global.
  destruct can_open; cbv beta iota zeta delta [negb].
  - eexists _, _. split; [reflexivity|]. split; [done|]. discriminate.
  - eexists _, _. split; [reflexivity|]. split; [discriminate|done].
Qed.

(** Export of the dealt session to a file that can be opened. *)
Lemma prompt_quit_never_completes_witness :
  "reading.csv" ≠ "" ∧
  ∃ e file,
    prompt_quit "reading.csv" true dealt_session = (Raised e, file) ∧
    e = NameError "sprd_config" ∧
    file = Some [["PyTarot reading"; "3 Card Simple Quick";
                  "2021-04-07 12:18:00"; "What now?"]].
Proof.
  split; [done|].
  destruct (prompt_quit_never_completes "reading.csv" true dealt_session)
    as (_ & _ & e & file & Hrun & Hopen & _); [done|].
  exists e, file. split; [done|].
  destruct (Hopen eq_refl) as [-> ->]. split; [done|]. by vm_compute.
Defined.

(** C2 fails on the code. In the session below three cards have been
    dealt: The Star and The Sun upright, The Fool reversed. Exporting
    writes the header row and then stops with [NameError]; none of the
    three placement rows is written. The loop that would write them is
    there: run with [sprd_config] bound to the dealt definition, it
    writes one row per placement, with the " Reversed" suffix on the
    reversed card only. *)
Theorem export_stops_after_header :
  let w := dealt_session in
  strv_sprd w = "3 Card Simple Quick" ∧
  tr_sprd w = [4; 2; 0] ∧ take 3 (tr_deck w) = [4; 2; 0] ∧
  TrCard_str <$> deck_view (cards w) (tr_sprd w)
  = ["The Star"; "The Sun"; "The Fool Reversed"] ∧
  prompt_quit "reading.csv" true w
  = (Raised (NameError "sprd_config"),
     Some [["PyTarot reading"; "3 Card Simple Quick";
            "2021-04-07 12:18:00"; "What now?"]]) ∧
  prompt_quit_in (<["sprd_config" := PyConfig three_card_cfg]> module_globals)
    "reading.csv" true w
  = (Done,
     Some [["PyTarot reading"; "3 Card Simple Quick";
            "2021-04-07 12:18:00"; "What now?"];
           ["1. Past"; "The Star"];
           ["2. Present"; "The Sun"];
           ["3. Future"; "The Fool Reversed"]]).
Proof. cbv zeta. repeat split; vm_compute; reflexivity. Qed.

(** * Further properties *)

(** ** Loading the deck *)

Lemma fill_deck_cons r rows h d :
  fill_deck (r :: rows) (h, d)
  = fill_deck rows (h ++ [card_of_row r], d ++ [length h]).
Proof. by destruct r as [[[cnm ccd] kwu] kwr]. Qed.

Lemma fill_deck_app rows h d :
  fill_deck rows (h, d)
  = (h ++ (card_of_row <$> rows), d ++ seq (length h) (length rows)).
Proof.
  revert h d. induction rows as [|r rows IH]; intros h d.
  - by rewrite !app_nil_r.
  - rewrite fill_deck_cons, IH, length_app, <- !app_assoc. simpl.
    by rewrite Nat.add_1_r.
Qed.

Lemma deck_view_seq (h : list TrCard) : deck_view h (seq 0 (length h)) = h.
Proof.
  apply list_eq. intros i. unfold deck_view. rewrite list_lookup_fmap.
  destruct (decide (i < length h)) as [Hi|Hi].
  - rewrite lookup_seq_lt by done. simpl.
    by rewrite <- list_lookup_lookup_total_lt.
  - rewrite lookup_seq_ge by lia. simpl. symmetry.
    apply lookup_ge_None. lia.
Qed.

Lemma card_ident_of_row r : card_ident (card_of_row r) = r.
Proof. by destruct r as [[[cnm ccd] kwu] kwr]. Qed.

(** Rows that give four strings, loaded into an empty deck: the cards
    read back through the deck give the rows again, and every card is
    upright, unplaced and without note. *)
Lemma fill_deck_fresh rows :
  let r0 := fill_deck rows ([], []) in
  card_ident <$> deck_view r0.1 r0.2 = rows ∧
  Forall (λ c, is_rev c = false ∧ rdg_note c = ""
               ∧ min_coord c = (None, None) ∧ max_coord c = (None, None))
         (deck_view r0.1 r0.2).
Proof.
  cbv zeta. rewrite !fill_deck_app. simpl.
  rewrite <- (length_fmap card_of_row rows), deck_view_seq.
  split.
  - rewrite <- list_fmap_compose. rewrite <- (list_fmap_id rows) at 2.
    apply list_fmap_ext. intros i r _. apply card_ident_of_row.
  - apply Forall_fmap, Forall_forall. by intros [[[cnm ccd] kwu] kwr] _.
Qed.

Lemma row_args_holds i_row r :
  row_holds i_row r → row_args i_row = inr (card_args r).
Proof.
  destruct r as [[[cnm ccd] kwu] kwr]. intros (E1 & E2 & E3 & E4).
  unfold row_args. by rewrite E1, E2, E3, E4.
Qed.

Lemma read_rows_complete rows trows :
  Forall2 row_holds rows trows →
  read_rows rows = (Done, card_args <$> trows).
Proof.
  induction 1 as [|i_row r rows trows Hr _ IH]; [done|].
  cbn [read_rows]. by rewrite (row_args_holds _ _ Hr), IH.
Qed.

Lemma mapM_args_row trows : mapM args_row (card_args <$> trows) = Some trows.
Proof.
  induction trows as [|[[[cnm ccd] kwu] kwr] trows IH]; [done|].
  rewrite fmap_cons. cbn [mapM]. rewrite IH. done.
Qed.

(** The subscripts are evaluated in the order of [CSV_COLUMNS]: the
    first column the dict lacks is the one [KeyError] names. *)
Lemma row_args_missing (i_row : gmap string (option string)) k pre post :
  CSV_COLUMNS = pre ++ k :: post →
  (∀ c, c ∈ pre → is_Some (i_row !! c)) →
  i_row !! k = None →
  row_args i_row = inl (KeyError k).
Proof.
  intros Hsplit Hpre Hk. unfold CSV_COLUMNS in Hsplit.
  assert (∀ c, c ∈ pre → ∃ v, i_row !! c = Some v) as Hpre'.
  { intros c Hc. destruct (Hpre c Hc) as [v Hv]. eauto. }
  unfold row_args.
  destruct pre as [|c1 [|c2 [|c3 [|c4 pre]]]]; simplify_eq/=.
  - by rewrite Hk.
  - destruct (Hpre' "Card") as [v1 ->]; [apply elem_of_cons; by left|].
    by rewrite Hk.
  - destruct (Hpre' "Card") as [v1 ->]; [apply elem_of_cons; by left|].
    destruct (Hpre' "Code") as [v2 ->];
      [apply elem_of_cons; right; apply elem_of_cons; by left|].
    by rewrite Hk.
  - destruct (Hpre' "Card") as [v1 ->]; [apply elem_of_cons; by left|].
    destruct (Hpre' "Code") as [v2 ->];
      [apply elem_of_cons; right; apply elem_of_cons; by left|].
    destruct (Hpre' "Keyword") as [v3 ->];
      [do 2 (apply elem_of_cons; right); apply elem_of_cons; by left|].
    by rewrite Hk.
  - by destruct pre.
Qed.

(** X1. [TrDeck.fill_deck] on the dicts that [csv.DictReader] yields.
    When every row gives a string for each of the columns Card, Code,
    Keyword and Reversed, the loop completes and appends one new card
    object per row, in file order, after the objects and references
    already there (it does not clear the deck first); loaded into an
    empty deck, the cards read back through the deck give the rows
    again, and every card is upright, unplaced and without note. When
    the first row lacks one of the four columns (the header line does
    not name it), the loop raises [KeyError] for the first such column
    in the order Card, Code, Keyword, Reversed, and appends nothing. *)
Theorem fill_deck_csv_loads h d :
  (∀ rows trows,
     Forall2 row_holds rows trows →
     fill_deck_csv rows (h, d)
     = Some (Done, (h ++ (card_of_row <$> trows),
                    d ++ seq (length h) (length trows))) ∧
     ∃ h0 d0,
       fill_deck_csv rows ([], []) = Some (Done, (h0, d0)) ∧
       card_ident <$> deck_view h0 d0 = trows ∧
       Forall (λ c, is_rev c = false ∧ rdg_note c = ""
                    ∧ min_coord c = (None, None)
                    ∧ max_coord c = (None, None))
              (deck_view h0 d0)) ∧
  (∀ (i_row : gmap string (option string)) rows k pre post,
     CSV_COLUMNS = pre ++ k :: post →
     (∀ c, c ∈ pre → is_Some (i_row !! c)) →
     i_row !! k = None →
     fill_deck_csv (i_row :: rows) (h, d) = Some (Raised (KeyError k), (h, d))).
Proof.
  split.
  - intros rows trows Hrows.
    assert (∀ hd, fill_deck_csv rows hd = Some (Done, fill_deck trows hd))
      as Hrun.
    { intros hd. unfold fill_deck_csv.
      by rewrite (read_rows_complete _ _ Hrows), mapM_args_row. }
    rewrite !Hrun. split; [by rewrite fill_deck_app|].
    pose proof (fill_deck_fresh trows) as Hfresh. cbv zeta in Hfresh.
    destruct (fill_deck trows ([], [])) as [h0 d0]. by exists h0, d0.
  - intros i_row rows k pre post Hsplit Hpre Hk.
    unfold fill_deck_csv. cbn [read_rows].
    by rewrite (row_args_missing _ _ _ _ Hsplit Hpre Hk).
Qed.

(** The six rows load into the six cards; the same file without its
    last column raises [KeyError] at the first row. *)
Lemma fill_deck_csv_loads_witness :
  fill_deck_csv six_csv ([], [])
  = Some (Done, ([] ++ (card_of_row <$> six_rows),
                 [] ++ seq (length (@nil TrCard)) (length six_rows))) ∧
  fill_deck_csv three_column_csv ([], [])
  = Some (Raised (KeyError "Reversed"), ([], [])).
Proof.
  destruct (fill_deck_csv_loads [] []) as [Hok Hmissing]. split.
  - refine (proj1 (Hok six_csv six_rows _)).
    repeat (constructor; [by vm_compute|]). constructor.
  - refine (Hmissing _ _ "Reversed" ["Card"; "Code"; "Keyword"] [] _ _ _).
    + reflexivity.
    + intros c Hc. revert c Hc. apply Forall_forall.
      repeat (constructor; [eexists; by vm_compute|]). constructor.
    + by vm_compute.
Defined.

(** ** What every session satisfies *)

Lemma entry_region_ok e c :
  region_ok (set_coords (entry_region e).1 (entry_region e).2 c).
Proof.
  destruct e as [[col row] label]. unfold region_ok, entry_region. simpl.
  eexists _, _, _, _. split; [reflexivity|]. split; [reflexivity|].
  unfold CELL_W, CELL_H, CELL_PAD. split; lra.
Qed.

Lemma region_ok_placed c : region_ok c → card_placed c.
Proof.
  intros (a & b & a' & b' & Hmin & Hmax & _). unfold card_placed.
  rewrite Hmin, Hmax. simpl. eauto.
Qed.

Lemma region_ok_coords c c' :
  min_coord c' = min_coord c → max_coord c' = max_coord c →
  region_ok c → region_ok c'.
Proof. unfold region_ok. by intros -> ->. Qed.

Lemma catalogue_lookup name :
  name ∈ SPREAD_OPTION →
  ∃ cfg, SPREAD_DEFN !! name = Some cfg ∧ 3 ≤ length cfg.
Proof.
  unfold SPREAD_OPTION. rewrite !elem_of_cons, elem_of_nil.
  intros [->|[->|[]]].
  - exists three_card_cfg. split; [by vm_compute|]. vm_compute. lia.
  - exists (default [] (SPREAD_DEFN !! "10 Card Celtic Cross")).
    split; [by vm_compute|]. vm_compute. lia.
Qed.

Lemma session_inv_wf w :
  session_inv w → deck_wf (cards w) (tr_deck w) ∧ spread_placed w.
Proof.
  intros (_ & Hdeck & _ & _ & _ & _ & Hreg). split; [split|].
  - rewrite Hdeck. apply NoDup_seq.
  - rewrite Hdeck. apply Forall_forall. intros l Hl.
    apply elem_of_seq in Hl. lia.
  - unfold spread_placed. eapply Forall_impl; [exact Hreg|].
    intros c. apply region_ok_placed.
Qed.

Lemma place_entry_region_ok w ec :
  ec.2 < length (cards w) →
  Forall (λ c, region_ok (cards w !!! c)) (tr_sprd w) →
  Forall (λ c, region_ok (cards (place_entry w ec) !!! c))
         (tr_sprd (place_entry w ec)).
Proof.
  intros Hlive Hreg. unfold place_entry. simpl. apply Forall_app. split.
  - eapply Forall_impl; [exact Hreg|]. intros c Hc. simpl in *.
    rewrite list_lookup_total_alter. case_decide; [|done].
    apply entry_region_ok.
  - apply Forall_singleton.
    rewrite list_lookup_total_alter, decide_True by done.
    apply entry_region_ok.
Qed.

Lemma placed_region_ok (zs : list (Q * Q * string * nat)) w :
  Forall (λ z, z.2 < length (cards w)) zs →
  Forall (λ c, region_ok (cards w !!! c)) (tr_sprd w) →
  Forall (λ c, region_ok (cards (foldl place_entry w zs) !!! c))
         (tr_sprd (foldl place_entry w zs)).
Proof.
  revert w. induction zs as [|z zs IH]; intros w Hzs Hreg; [done|].
  apply Forall_cons in Hzs as [Hz Hzs]. simpl. apply IH.
  - simpl. by rewrite length_alter.
  - by apply place_entry_region_ok.
Qed.

(** [show_spread], case by case. *)
Lemma show_spread_cases w :
  (SPREAD_DEFN !! strv_sprd w = None ∧
   show_spread w = (Raised (KeyError (strv_sprd w)), w)) ∨
  (∃ cfg,
     SPREAD_DEFN !! strv_sprd w = Some cfg ∧
     let w' := foldl place_entry (with_sprd_name (strv_sprd w) w)
                     (zip cfg (tr_deck w)) in
     (length cfg ≤ length (tr_deck w) ∧
      show_spread w = (Done, with_btn_quit true w')) ∨
     (length (tr_deck w) < length cfg ∧
      show_spread w = (Raised IndexError, w'))).
Proof.
  unfold show_spread. destruct (SPREAD_DEFN !! strv_sprd w) as [cfg|];
    [right; exists cfg; split; [done|]|by left].
  rewrite deal_all_placed.
  change (tr_deck (with_sprd_name (strv_sprd w) w)) with (tr_deck w).
  case_decide; [left|right]; split; (done || lia).
Qed.

Lemma zip_deck_live cfg (h : list TrCard) (d : list nat) :
  Forall (λ l, l < length h) d →
  Forall (λ z : Q * Q * string * nat, z.2 < length h) (zip cfg d).
Proof.
  intros Hlive. apply Forall_forall. intros [e c] Hin. simpl.
  rewrite Forall_forall in Hlive. apply Hlive.
  apply list_elem_of_lookup in Hin as [i Hi].
  apply lookup_zip_with_Some in Hi as (? & ? & ? & ? & Hc). simplify_eq.
  apply list_elem_of_lookup. eauto.
Qed.

Lemma show_spread_session_inv w :
  session_inv w → session_inv (show_spread w).2.
Proof.
  intros Hinv. pose proof Hinv as (Hopt & Hdeck & Hsub & Hix & Hpop & Hbtn & Hreg).
  destruct (session_inv_wf w Hinv) as [[Hnd Hlive] _].
  destruct (show_spread_cases w) as [[_ ->]|(cfg & Hcfg & Hcase)]; [done|].
  destruct (catalogue_lookup _ Hopt) as (cfg' & Hcfg' & Hlen3).
  rewrite Hcfg in Hcfg'. injection Hcfg' as <-.
  set (w1 := with_sprd_name (strv_sprd w) w) in *.
  set (zs := zip cfg (tr_deck w)) in *.
  destruct (placed_frame zs w1)
    as (Hd & _ & _ & _ & Hat & Hstrv & _ & Hb & Hnp & Hlenc).
  pose proof (placed_tr_sprd zs w1) as Hsp.
  unfold zs in Hsp at 2. rewrite zip_snd_take in Hsp.
  change (tr_sprd w1) with (tr_sprd w) in Hsp.
  pose proof (placed_region_ok zs w1 (zip_deck_live cfg _ _ Hlive) Hreg)
    as Hreg'.
  assert (∀ b, (b = true → tr_sprd (foldl place_entry w1 zs) ≠ []) →
            session_inv (with_btn_quit b (foldl place_entry w1 zs))) as Hgoal.
  { intros b Hb'. unfold session_inv. simpl.
    rewrite Hstrv, Hd, Hlenc, Hat, Hnp, Hsp. simpl.
    split; [done|]. split; [done|]. split.
    { intros c [Hc|Hc%subseteq_take]%elem_of_app; [by apply Hsub|done]. }
    split. { intros ix Hi. rewrite length_app. specialize (Hix ix Hi). lia. }
    split. { eapply Forall_impl; [exact Hpop|]. intros ix Hi. simpl in *.
             rewrite length_app. lia. }
    split. { intros Hb''. rewrite <- Hsp. by apply Hb'. }
    by rewrite <- Hsp. }
  destruct Hcase as [[Hle ->]|[Hlt ->]]; simpl.
  - apply Hgoal. intros _. rewrite Hsp. intros Hnil.
    apply (f_equal length) in Hnil.
    rewrite length_app, length_take in Hnil. simpl in Hnil. lia.
  - destruct (foldl place_entry w1 zs) as [] eqn:E.
    specialize (Hgoal btn_quit_enabled0). simpl in *. apply Hgoal.
    intros Hen. rewrite Hb in Hen. specialize (Hbtn Hen).
    rewrite Hsp. intros Hnil. by apply app_eq_nil in Hnil as [? _].
Qed.

Section session_facts.
Context `{RandomSource}.

(** What [popup_shuffle] leaves alone and what it changes. *)
Lemma popup_shuffle_fields now w :
  let w' := (popup_shuffle now w).2 in
  tr_qry w' = tr_qry w ∧ tr_datetime w' = now ∧
  tr_sprd w' = tr_sprd w ∧ sprd_name w' = sprd_name w ∧
  at_card_ix w' = at_card_ix w ∧ strv_sprd w' = strv_sprd w ∧
  strv_note w' = strv_note w ∧ btn_quit_enabled w' = btn_quit_enabled w ∧
  note_popups w' = note_popups w ∧
  tr_deck w' ≡ₚ tr_deck w ∧
  ∃ ls, cards w' = toggle_all ls (cards w).
Proof.
  unfold popup_shuffle.
  change (tr_qry (with_tr_datetime now w)) with (tr_qry w).
  change (tr_datetime (with_tr_datetime now w)) with now.
  change (cards (with_tr_datetime now w)) with (cards w).
  change (tr_deck (with_tr_datetime now w)) with (tr_deck w).
  destruct (tr_qry w) as [qry|] eqn:Eq.
  - destruct (shuffle_store_and_deck (qry +:+ now) (cards w) (tr_deck w))
      as (ls & Hh & Hd).
    destruct (TrDeck_shuffle (qry +:+ now) (cards w, tr_deck w))
      as [o [h d]]. simpl in *. repeat split; try done. by exists ls.
  - simpl. repeat split; try done. by exists [].
Qed.

Lemma popup_shuffle_session_inv now w :
  session_inv w → session_inv (popup_shuffle now w).2.
Proof.
  intros (Hopt & Hdeck & Hsub & Hix & Hpop & Hbtn & Hreg).
  destruct (popup_shuffle_fields now w)
    as (_ & _ & Hsp & _ & Hat & Hstrv & _ & Hb & Hnp & Hd & ls & Hc).
  unfold session_inv. rewrite Hsp, Hat, Hstrv, Hb, Hnp, Hd, Hc.
  rewrite toggle_all_length. repeat split; try done.
  eapply Forall_impl; [exact Hreg|]. intros c. simpl.
  apply region_ok_coords; apply attr_lookup_total, toggle_all_attr;
    by intros [].
Qed.

Lemma on_click_session_inv x y w :
  session_inv w → session_inv (on_click x y w).2.
Proof.
  intros Hinv. destruct (session_inv_wf w Hinv) as [_ Hpl].
  rewrite on_click_result by done. simpl.
  destruct Hinv as (Hopt & Hdeck & Hsub & Hix & Hpop & Hbtn & Hreg).
  unfold click_result. destruct (last (hits x y w)) as [i|] eqn:E; [|done].
  assert (∀ j, j ∈ hits x y w → j < length (tr_sprd w)) as Hlt.
  { intros j (c & Hc & _)%hits_elem. by apply lookup_lt_Some in Hc. }
  unfold session_inv. simpl. repeat split; try done.
  - intros ix [= <-]. by apply Hlt, last_Some_elem_of.
  - apply Forall_app. split; [done|]. by apply Forall_forall.
Qed.

Lemma popup_note_close_session_inv w :
  session_inv w → session_inv (popup_note_close w).2.
Proof.
  intros Hinv. pose proof Hinv as (Hopt & Hdeck & Hsub & Hix & Hpop & Hbtn & Hreg).
  unfold popup_note_close.
  destruct (at_card_ix w) as [ix|] eqn:Eix; [|done].
  destruct (tr_sprd w !! ix) as [c|]; [|done]. simpl.
  unfold session_inv. simpl. rewrite length_alter, Eix.
  repeat split; try done.
  eapply Forall_impl; [exact Hreg|]. intros c'. simpl.
  rewrite list_lookup_total_alter.
  case_decide as Hc; [|done]. destruct Hc as [-> _].
  by apply region_ok_coords.
Qed.

Lemma WinTr_init_session_inv rows now : session_inv (WinTr_init rows now).
Proof.
  unfold WinTr_init. rewrite fill_deck_app. simpl.
  unfold session_inv. simpl. rewrite length_fmap.
  repeat split; try done.
  - unfold SPREAD_OPTION, SPREAD_DEFAULT. apply elem_of_cons. right.
    apply elem_of_cons. by left.
  - by apply list_subseteq_nil.
Qed.

(** Every session satisfies [session_inv]. *)
Lemma reachable_session_inv w : reachable w → session_inv w.
Proof.
  induction 1 as [rows now|answer w _ IH|name w Hname _ IH|now w _ IH
                 |w _ IH|x y w _ IH|text w _ IH|w _ IH].
  - apply WinTr_init_session_inv.
  - exact IH.
  - destruct IH as (_ & IH). by split.
  - by apply popup_shuffle_session_inv.
  - by apply show_spread_session_inv.
  - by apply on_click_session_inv.
  - exact IH.
  - by apply popup_note_close_session_inv.
Qed.

End session_facts.

Section session_properties.
Context `{RandomSource}.

(** X2. In every session the deck lists every card object created at
    load exactly once: whatever callbacks have run, and whether they
    completed or raised, no card has been lost or duplicated. *)
Theorem session_deck_holds_every_card w :
  reachable w →
  tr_deck w ≡ₚ seq 0 (length (cards w)) ∧
  NoDup (tr_deck w) ∧ length (tr_deck w) = length (cards w).
Proof.
  intros (_ & Hdeck & _)%reachable_session_inv. split; [done|].
  rewrite Hdeck. split; [apply NoDup_seq|apply length_seq].
Qed.

(** X3. In every session the spread holds only cards of the deck, and
    each of them carries a region whose minimum lies strictly below
    its maximum on both axes. *)
Theorem session_spread_within_deck w :
  reachable w →
  tr_sprd w ⊆ tr_deck w ∧
  Forall (λ c, region_ok (cards w !!! c)) (tr_sprd w).
Proof. by intros (_ & _ & Hsub & _ & _ & _ & Hreg)%reachable_session_inv. Qed.

(** X4. In every session the selected index, and every index a note
    popup was opened for, names a placement of the spread. Closing a
    note popup therefore never raises [IndexError]: it completes when
    a placement is selected and raises [TypeError] when none is. *)
Theorem session_selection_valid w :
  reachable w →
  (∀ ix, at_card_ix w = Some ix → is_Some (tr_sprd w !! ix)) ∧
  Forall (λ ix, is_Some (tr_sprd w !! ix)) (note_popups w) ∧
  (popup_note_close w).1
  = match at_card_ix w with Some _ => Done | None => Raised TypeError end.
Proof.
  intros (_ & _ & _ & Hix & Hpop & _)%reachable_session_inv.
  split; [|split].
  - intros ix Hi. by apply lookup_lt_is_Some, Hix.
  - eapply Forall_impl; [exact Hpop|]. intros ix. apply lookup_lt_is_Some.
  - unfold popup_note_close. destruct (at_card_ix w) as [ix|]; [|done].
    destruct (lookup_lt_is_Some_2 (tr_sprd w) ix (Hix ix eq_refl)) as [c ->].
    done.
Qed.

(** X5. The "Save & Close" button is enabled only in sessions whose
    spread holds at least one placement. *)
Theorem save_enabled_only_after_deal w :
  reachable w → btn_quit_enabled w = true → tr_sprd w ≠ [].
Proof. intros (_ & _ & _ & _ & _ & Hbtn & _)%reachable_session_inv. done. Qed.

(** X6. In every session the chosen spread name is in the catalogue,
    so "Deal Cards" never raises [KeyError]: the deal completes when
    the deck holds at least as many cards as the definition has
    entries, and raises [IndexError] otherwise. *)
Theorem deal_outcome w :
  reachable w →
  ∃ cfg,
    SPREAD_DEFN !! strv_sprd w = Some cfg ∧
    (show_spread w).1
    = (if decide (length cfg ≤ length (tr_deck w)) then Done
       else Raised IndexError).
Proof.
  intros (Hopt & _)%reachable_session_inv.
  destruct (catalogue_lookup _ Hopt) as (cfg & Hcfg & _).
  exists cfg. split; [done|].
  destruct (show_spread_cases w) as [[Hnone _]|(cfg' & Hcfg' & Hcase)];
    [congruence|].
  rewrite Hcfg in Hcfg'. injection Hcfg' as <-.
  destruct Hcase as [[Hle ->]|[Hlt ->]]; simpl.
  - by rewrite decide_True.
  - by rewrite decide_False by lia.
Qed.

(** X7. In every session a click on the canvas completes without
    raising, and changes neither the cards, nor the deck, nor the
    spread; before any card has been dealt it changes nothing at
    all. *)
Theorem on_click_never_raises x y w :
  reachable w →
  (on_click x y w).1 = Done ∧
  cards (on_click x y w).2 = cards w ∧
  tr_deck (on_click x y w).2 = tr_deck w ∧
  tr_sprd (on_click x y w).2 = tr_sprd w ∧
  (tr_sprd w = [] → (on_click x y w).2 = w).
Proof.
  intros Hinv%reachable_session_inv.
  destruct (session_inv_wf w Hinv) as [_ Hpl].
  rewrite on_click_result by done. simpl. unfold click_result.
  split; [done|].
  destruct (last (hits x y w)) as [i|] eqn:E; [|done].
  repeat split; try done.
  intros Hnil. apply last_Some_elem_of, hits_elem in E as (c & Hc & _).
  by rewrite Hnil in Hc.
Qed.

End session_properties.

(** The dealt session of the examples is a session. *)
Lemma dealt_session_reachable : @reachable lcg_source dealt_session.
Proof.
  unfold dealt_session, six_session.
  apply reach_deal, reach_shuffle, reach_qry, reach_select, reach_init.
  unfold SPREAD_OPTION. apply elem_of_cons. by left.
Qed.

Lemma session_deck_holds_every_card_witness :
  tr_deck dealt_session ≡ₚ seq 0 (length (cards dealt_session)) ∧
  NoDup (tr_deck dealt_session) ∧
  length (tr_deck dealt_session) = length (cards dealt_session).
Proof.
  exact (@session_deck_holds_every_card lcg_source dealt_session
           dealt_session_reachable).
Defined.

Lemma session_spread_within_deck_witness :
  tr_sprd dealt_session ⊆ tr_deck dealt_session ∧
  Forall (λ c, region_ok (cards dealt_session !!! c)) (tr_sprd dealt_session).
Proof.
  exact (@session_spread_within_deck lcg_source dealt_session
           dealt_session_reachable).
Defined.

Lemma session_selection_valid_witness :
  (∃ w, w = (on_click 100 300 dealt_session).2 ∧
        at_card_ix w = Some 0 ∧ is_Some (tr_sprd w !! 0) ∧
        (popup_note_close w).1 = Done).
Proof.
  exists (on_click 100 300 dealt_session).2. split; [done|].
  destruct (@session_selection_valid lcg_source
              (on_click 100 300 dealt_session).2
              (reach_click 100 300 _ dealt_session_reachable))
    as (Hix & _ & Hclose).
  assert (at_card_ix (on_click 100 300 dealt_session).2 = Some 0) as Hat
    by (by vm_compute).
  split; [done|]. split; [by apply Hix|]. by rewrite Hclose, Hat.
Defined.

Lemma save_enabled_only_after_deal_witness :
  btn_quit_enabled dealt_session = true ∧ tr_sprd dealt_session ≠ [].
Proof.
  assert (btn_quit_enabled dealt_session = true) as Hbtn by (by vm_compute).
  split; [done|].
  exact (@save_enabled_only_after_deal lcg_source dealt_session
           dealt_session_reachable Hbtn).
Defined.

Lemma deal_outcome_witness :
  ∃ cfg,
    SPREAD_DEFN !! strv_sprd dealt_session = Some cfg ∧
    (show_spread dealt_session).1
    = (if decide (length cfg ≤ length (tr_deck dealt_session)) then Done
       else Raised IndexError).
Proof.
  exact (@deal_outcome lcg_source dealt_session dealt_session_reachable).
Defined.

Lemma on_click_never_raises_witness :
  (on_click 100 300 dealt_session).1 = Done ∧
  cards (on_click 100 300 dealt_session).2 = cards dealt_session ∧
  tr_deck (on_click 100 300 dealt_session).2 = tr_deck dealt_session ∧
  tr_sprd (on_click 100 300 dealt_session).2 = tr_sprd dealt_session ∧
  (tr_sprd dealt_session = [] →
   (on_click 100 300 dealt_session).2 = dealt_session).
Proof.
  exact (@on_click_never_raises lcg_source 100 300 dealt_session
           dealt_session_reachable).
Defined.

(** ** What each callback may change *)

Lemma for_each_preserves {S B} (g : S → B) (body : nat → S → outcome * S)
    (range : list nat) (s : S) :
  (∀ i s', g (body i s').2 = g s') → g (for_each body range s).2 = g s.
Proof.
  intros Hbody. revert s. induction range as [|i range IH]; intros s; [done|].
  simpl. specialize (Hbody i s). destruct (body i s) as [[|e] s'].
  - by rewrite IH.
  - done.
Qed.

Lemma on_click_frame x y w :
  cards (on_click x y w).2 = cards w ∧
  tr_deck (on_click x y w).2 = tr_deck w ∧
  tr_sprd (on_click x y w).2 = tr_sprd w.
Proof.
  pose proof (for_each_preserves (λ w, (cards w, tr_deck w, tr_sprd w))
                (click_card x y) (seq 0 (length (tr_sprd w))) w) as Hfr.
  unfold on_click. simpl in Hfr.
  assert (∀ (i : nat) (s' : WinTr),
            (cards (click_card x y i s').2, tr_deck (click_card x y i s').2,
             tr_sprd (click_card x y i s').2)
            = (cards s', tr_deck s', tr_sprd s')) as Hbody.
  { intros i s'. unfold click_card, popup_card_note.
    destruct (tr_sprd s' !! i) as [c|] eqn:Ec; [|done].
    destruct (point_in_card x y (cards s' !!! c)) as [[|]|]; try done.
    simpl. by rewrite Ec. }
  specialize (Hfr Hbody). by injection Hfr.
Qed.

Lemma placed_attr {B} (f : TrCard → B) (zs : list (Q * Q * string * nat))
    w c :
  (∀ mn mx card, f (set_coords mn mx card) = f card) →
  f <$> cards (foldl place_entry w zs) !! c = f <$> cards w !! c.
Proof.
  intros Hf. revert w. induction zs as [|z zs IH]; intros w; [done|].
  simpl. rewrite IH. simpl. rewrite list_lookup_alter.
  case_decide as Hc; [|done]. rewrite Hc.
  destruct (cards w !! c); simpl; [|done]. by rewrite Hf.
Qed.

(** What [show_spread] leaves alone and what it changes. *)
Lemma show_spread_fields w :
  let w' := (show_spread w).2 in
  length (cards w') = length (cards w) ∧
  tr_deck w' = tr_deck w ∧
  tr_sprd w `prefix_of` tr_sprd w' ∧
  ∀ B (f : TrCard → B),
    (∀ mn mx card, f (set_coords mn mx card) = f card) →
    ∀ c, f (cards w' !!! c) = f (cards w !!! c).
Proof.
  destruct (show_spread_cases w) as [[_ ->]|(cfg & _ & Hcase)]; [done|].
  set (w1 := with_sprd_name (strv_sprd w) w) in *.
  set (zs := zip cfg (tr_deck w)) in *.
  destruct (placed_frame zs w1) as (Hd & _ & _ & _ & _ & _ & _ & _ & _ & Hlen).
  pose proof (placed_tr_sprd zs w1) as Hsp.
  assert (∀ B (f : TrCard → B),
            (∀ mn mx card, f (set_coords mn mx card) = f card) →
            ∀ c, f (cards (foldl place_entry w1 zs) !!! c)
                 = f (cards w !!! c)) as Hattr.
  { intros B f Hf c. apply attr_lookup_total.
    by rewrite (placed_attr f zs w1 c Hf). }
  destruct Hcase as [[_ ->]|[_ ->]]; simpl; rewrite ?Hlen, ?Hd, ?Hsp;
    (split; [done|]; split; [done|]; split; [by eexists|]; exact Hattr).
Qed.

Section footprint.
Context `{RandomSource}.

(** X8. What a callback may change. No callback adds, removes or
    renames a card: the store keeps its size, every card keeps its
    name, code and keywords, the deck is at most reordered, and the
    placements already in the spread stay where they are. Only
    "Shuffle" reorders the deck or changes a reversal flag; only "Deal
    Cards" adds placements or writes a region; only the "OK" of a note
    popup writes a note. *)
Theorem callback_footprint cb w :
  let w' := run_callback cb w in
  length (cards w') = length (cards w) ∧
  (∀ c, card_ident (cards w' !!! c) = card_ident (cards w !!! c)) ∧
  tr_deck w' ≡ₚ tr_deck w ∧
  tr_sprd w `prefix_of` tr_sprd w' ∧
  ((∀ now, cb ≠ CbShuffle now) →
   tr_deck w' = tr_deck w ∧
   ∀ c, is_rev (cards w' !!! c) = is_rev (cards w !!! c)) ∧
  (cb ≠ CbDeal →
   tr_sprd w' = tr_sprd w ∧
   ∀ c, min_coord (cards w' !!! c) = min_coord (cards w !!! c) ∧
        max_coord (cards w' !!! c) = max_coord (cards w !!! c)) ∧
  (cb ≠ CbNoteClose →
   ∀ c, rdg_note (cards w' !!! c) = rdg_note (cards w !!! c)).
Proof.
  destruct cb as [answer|name|now| |x y|text| ]; cbv zeta; simpl.
  - repeat split; done.
  - repeat split; done.
  - destruct (popup_shuffle_fields now w)
      as (_ & _ & Hsp & _ & _ & _ & _ & _ & _ & Hd & ls & Hc).
    rewrite Hsp, Hc, toggle_all_length.
    assert (∀ B (f : TrCard → B), (∀ card, f (toggle_rev card) = f card) →
              ∀ c, f (toggle_all ls (cards w) !!! c) = f (cards w !!! c))
      as Hattr.
    { intros B f Hf c. by apply attr_lookup_total, toggle_all_attr. }
    split; [done|]. split; [by apply Hattr; intros []|].
    split; [done|]. split; [done|].
    split; [intros Hno; by destruct (Hno now)|].
    split.
    + intros _. split; [done|]. intros c. split; by apply Hattr; intros [].
    + intros _. by apply Hattr; intros [].
  - destruct (show_spread_fields w) as (Hlen & Hd & Hpre & Hattr).
    rewrite Hlen, Hd. split; [done|]. split; [by apply Hattr|].
    split; [done|]. split; [done|].
    split; [intros _; split; [done|]; by apply Hattr|].
    split; [done|]. intros _. by apply Hattr.
  - destruct (on_click_frame x y w) as (-> & -> & ->). repeat split; done.
  - repeat split; done.
  - unfold popup_note_close.
    destruct (at_card_ix w) as [ix|]; [|repeat split; done].
    destruct (tr_sprd w !! ix) as [c0|]; [|repeat split; done]. simpl.
    rewrite length_alter.
    assert (∀ B (f : TrCard → B),
              (∀ t card, f (set_rdg_note t card) = f card) →
              ∀ c, f (alter (set_rdg_note (strv_note w)) c0 (cards w) !!! c)
                   = f (cards w !!! c)) as Hattr.
    { intros B f Hf c. rewrite list_lookup_total_alter.
      case_decide as Hc; [|done]. destruct Hc as [-> _]. apply Hf. }
    split; [done|]. split; [by apply Hattr|].
    split; [done|]. split; [done|].
    split; [intros _; split; [done|]; by apply Hattr|].
    split; [|done]. intros _. split; [done|]. intros c.
    split; by apply Hattr.
Qed.

End footprint.

(** ** Annotating a card *)

(** X9. Annotating goes through the shared card object. When a click
    selects placement [i] (the highest placement whose region contains
    the point), typing a text and closing the popup completes and
    writes the text as the note of the card that placement references,
    changing nothing else on that card and no other card; deck and
    spread are as before the click. *)
Theorem annotate_selected_card x y text w i c :
  spread_placed w →
  tr_sprd w !! i = Some c →
  c < length (cards w) →
  region_contains x y (cards w !!! c) →
  (∀ j c', i < j → tr_sprd w !! j = Some c' →
           ¬ region_contains x y (cards w !!! c')) →
  let r := popup_note_close (type_note text (on_click x y w).2) in
  r.1 = Done ∧
  cards r.2 = alter (set_rdg_note text) c (cards w) ∧
  rdg_note (cards r.2 !!! c) = text ∧
  tr_deck r.2 = tr_deck w ∧ tr_sprd r.2 = tr_sprd w.
Proof.
  intros Hpl Hc Hlive Hin Hlast. cbv zeta.
  rewrite on_click_result by done. simpl.
  assert (last (hits x y w) = Some i) as Hl.
  { apply hits_last.
    - apply hits_elem. eauto.
    - intros j (c' & Hc' & Hin')%hits_elem.
      destruct (decide (j ≤ i)) as [|Hgt]; [done|].
      destruct (Hlast j c'); [lia|done..]. }
  unfold click_result. rewrite Hl.
  unfold popup_note_close. simpl. rewrite Hc. simpl.
  repeat split; try done.
  by rewrite list_lookup_total_alter, decide_True.
Qed.

Lemma annotate_selected_card_witness :
  let w := (show_spread six_session).2 in
  let r := popup_note_close
             (type_note "a new start" (on_click 100 300 w).2) in
  r.1 = Done ∧
  cards r.2 = alter (set_rdg_note "a new start") 0 (cards w) ∧
  rdg_note (cards r.2 !!! 0) = "a new start" ∧
  tr_deck r.2 = tr_deck w ∧ tr_sprd r.2 = tr_sprd w.
Proof.
  apply (annotate_selected_card 100 300 "a new start"
           (show_spread six_session).2 0 0).
  - by_compute.
  - by vm_compute.
  - vm_compute. lia.
  - apply point_in_card_true. by vm_compute.
  - intros j c' Hj Hc' Hin%point_in_card_true.
    destruct j as [|[|[|j]]]; [lia|..]; vm_compute in Hc'; simplify_eq;
      vm_compute in Hin; discriminate.
Defined.

(** ** Shuffling a deck shorter than the number drawn *)

Section short_deck.
Context `{RandomSource}.

(** X10. When the deck holds fewer cards than the number [n] drawn,
    [TrDeck.shuffle] raises [IndexError] from the reversal loop: by
    then the deck has been permuted once and every card of it has been
    toggled, and the second permutation is not applied. *)
Theorem shuffle_short_deck s h d :
  deck_wf h d →
  let n := (randint MIN_REV MAX_REV (seed_rng s)).1 in
  let d1 := (random_shuffle d (randint MIN_REV MAX_REV (seed_rng s)).2).1 in
  length d < n →
  TrDeck_shuffle s (h, d) = (Raised IndexError, (toggle_all d1 h, d1)) ∧
  d1 ≡ₚ d ∧
  deck_view (toggle_all d1 h) d1 = toggle_rev <$> deck_view h d1.
Proof.
  intros Hwf. cbv zeta. unfold TrDeck_shuffle.
  destruct (randint MIN_REV MAX_REV (seed_rng s)) as [n g1]. simpl.
  pose proof (random_shuffle_perm d g1) as Hp1.
  destruct (random_shuffle d g1) as [d1 g2]. simpl in *. intros Hn.
  assert (deck_wf h d1) as Hwf1 by (eapply deck_wf_perm; [symmetry|]; done).
  assert (length d1 < n) as Hn1 by by rewrite Hp1.
  rewrite for_each_toggle by lia. rewrite drop_0, decide_False by lia.
  rewrite take_ge by lia. split; [done|]. split; [done|].
  pose proof (deck_view_toggle h d1 (length d1) Hwf1) as Hv.
  rewrite firstn_all in Hv. rewrite Hv. unfold toggle_first.
  rewrite take_ge, drop_ge, app_nil_r; try done.
  all: unfold deck_view; by rewrite length_fmap.
Qed.

End short_deck.

Lemma shuffle_short_deck_witness :
  let s := "What now?2021-04-07 12:00:00" in
  let n := (@randint lcg_source MIN_REV MAX_REV (lcg_seed s)).1 in
  let d1 := (@random_shuffle lcg_source _ six_deck.2
               (@randint lcg_source MIN_REV MAX_REV (lcg_seed s)).2).1 in
  @TrDeck_shuffle lcg_source s (six_deck.1, six_deck.2)
  = (Raised IndexError, (toggle_all d1 six_deck.1, d1)) ∧
  d1 ≡ₚ six_deck.2 ∧
  deck_view (toggle_all d1 six_deck.1) d1
  = toggle_rev <$> deck_view six_deck.1 d1.
Proof.
  refine (@shuffle_short_deck lcg_source "What now?2021-04-07 12:00:00"
            six_deck.1 six_deck.2 _ _).
  - by_compute.
  - vm_compute. lia.
Defined.

(** ** The outcome of the shuffle popup *)

Section shuffle_popup.
Context `{RandomSource}.

Lemma TrDeck_shuffle_outcome s h d :
  (TrDeck_shuffle s (h, d)).1
  = if decide ((randint MIN_REV MAX_REV (seed_rng s)).1 ≤ length d)
    then Done else Raised IndexError.
Proof.
  unfold TrDeck_shuffle.
  destruct (randint MIN_REV MAX_REV (seed_rng s)) as [n g1]. simpl.
  pose proof (random_shuffle_length d g1) as Hlen.
  destruct (random_shuffle d g1) as [d1 g2]. simpl in *.
  rewrite for_each_toggle by lia. rewrite Hlen. simpl.
  case_decide; [|done]. by destruct (random_shuffle d1 g2).
Qed.

(** X11. "Shuffle" always stamps the session with the new date and
    time. It raises [TypeError] when the query dialogue was cancelled,
    leaving cards and deck as they were; otherwise it shuffles with
    the seed [query + datetime] and completes exactly when the number
    that seed draws does not exceed the size of the deck, raising
    [IndexError] if it does. *)
Theorem popup_shuffle_outcome now w :
  tr_datetime (popup_shuffle now w).2 = now ∧
  (popup_shuffle now w).1
  = match tr_qry w with
    | None => Raised TypeError
    | Some qry =>
        if decide ((randint MIN_REV MAX_REV (seed_rng (qry +:+ now))).1
                   ≤ length (tr_deck w))
        then Done else Raised IndexError
    end ∧
  (tr_qry w = None →
   cards (popup_shuffle now w).2 = cards w ∧
   tr_deck (popup_shuffle now w).2 = tr_deck w).
Proof.
  destruct (popup_shuffle_fields now w) as (_ & Hnow & _).
  split; [done|]. unfold popup_shuffle.
  change (tr_qry (with_tr_datetime now w)) with (tr_qry w).
  change (tr_datetime (with_tr_datetime now w)) with now.
  change (cards (with_tr_datetime now w)) with (cards w).
  change (tr_deck (with_tr_datetime now w)) with (tr_deck w).
  destruct (tr_qry w) as [qry|]; [|done].
  split; [|done].
  rewrite <- (TrDeck_shuffle_outcome (qry +:+ now) (cards w) (tr_deck w)).
  by destruct (TrDeck_shuffle (qry +:+ now) (cards w, tr_deck w))
    as [o [h d]].
Qed.

End shuffle_popup.

(** ** The regions of a catalogue entry do not overlap *)

Lemma entry_region_box e :
  entry_region e
  = ((Some (entry_box e).1.1.1, Some (entry_box e).1.1.2),
     (Some (entry_box e).1.2, Some (entry_box e).2)).
Proof. by destruct e as [[col row] label]. Qed.

Lemma region_contains_box x y c e :
  min_coord c = (entry_region e).1 → max_coord c = (entry_region e).2 →
  region_contains x y c → in_box x y (entry_box e).
Proof.
  rewrite entry_region_box. simpl.
  intros Hmin Hmax (a & b & a' & b' & Hmin' & Hmax' & Hin).
  rewrite Hmin in Hmin'. rewrite Hmax in Hmax'. simplify_eq.
  destruct (entry_box e) as [[[? ?] ?] ?]. simpl in *. simplify_eq. done.
Qed.

Lemma boxes_disjoint_sound x y b1 b2 :
  boxes_disjoint b1 b2 = true → in_box x y b1 → in_box x y b2 → False.
Proof.
  destruct b1 as [[[x1 y1] X1] Y1], b2 as [[[x2 y2] X2] Y2].
  unfold boxes_disjoint, in_box.
  rewrite !orb_true_iff, !Qle_bool_iff.
  intros Hd (? & ? & ? & ?) (? & ? & ? & ?).
  destruct Hd as [[[Hd|Hd]|Hd]|Hd]; lra.
Qed.

Lemma pairwise_disjoint_sound cfg i j e1 e2 :
  pairwise_disjoint cfg = true → i < j →
  cfg !! i = Some e1 → cfg !! j = Some e2 →
  boxes_disjoint (entry_box e1) (entry_box e2) = true.
Proof.
  revert i j. induction cfg as [|e cfg IH]; intros i j Hpw Hij Hi Hj; [done|].
  simpl in Hpw. apply andb_true_iff in Hpw as [Hhead Htail].
  destruct i as [|i], j as [|j]; try lia; simpl in *.
  - simplify_eq.
    apply Is_true_true, forallb_True in Hhead.
    rewrite Forall_forall in Hhead.
    apply Is_true_true, (Hhead e2), list_elem_of_lookup. eauto.
  - apply (IH i j); [done|lia|done..].
Qed.

Lemma catalogue_disjoint name cfg :
  name ∈ SPREAD_OPTION → SPREAD_DEFN !! name = Some cfg →
  pairwise_disjoint cfg = true.
Proof.
  unfold SPREAD_OPTION. rewrite !elem_of_cons, elem_of_nil.
  intros [->|[->|[]]] Hcfg; vm_compute in Hcfg; injection Hcfg as <-;
    by vm_compute.
Qed.

Lemma length_le_1 {A} (l : list A) :
  NoDup l → (∀ a b, a ∈ l → b ∈ l → a = b) → length l ≤ 1.
Proof.
  intros Hnd Heq. destruct l as [|a [|b l]]; simpl; try lia.
  apply NoDup_cons in Hnd as [Ha _]. destruct Ha.
  rewrite (Heq a b); [apply elem_of_cons; by left|
                       apply elem_of_cons; by left|set_solver].
Qed.

(** ** Dealing while Tk dispatches other callbacks *)

Lemma card_region_set_coords e c :
  card_region (set_coords (entry_region e).1 (entry_region e).2 c)
  = entry_region e.
Proof. unfold card_region. simpl. by destruct (entry_region e). Qed.

Lemma card_region_placed e c : card_region c = entry_region e → card_placed c.
Proof.
  rewrite entry_region_box. unfold card_region, card_placed.
  intros [= -> ->]. simpl. eauto.
Qed.

Lemma on_click_keeps_layout x y : keeps_layout (λ w, (on_click x y w).2).
Proof.
  intros w. destruct (on_click_frame x y w) as (Hc & Hd & Hs).
  by rewrite Hc, Hd, Hs.
Qed.

Lemma keeps_layout_id : keeps_layout (λ w, w).
Proof. done. Qed.

Section deal_during.
Context (update : nat → WinTr → WinTr).
Hypothesis update_keeps_layout : ∀ i, keeps_layout (update i).

(** The deal loop with callbacks in between that leave the layout
    alone: as far as the deck goes, entry [j] is placed on the card at
    deck index [j]. *)
Lemma deal_during_loop cfg k i w :
  i + k ≤ length cfg → i ≤ length (tr_deck w) →
  deck_wf (cards w) (tr_deck w) →
  let r := for_each (λ j w', deal_card cfg j (update j w')) (seq i k) w in
  r.1 = (if decide (i + k ≤ length (tr_deck w)) then Done
         else Raised IndexError) ∧
  tr_deck r.2 = tr_deck w ∧
  tr_sprd r.2 = tr_sprd w ++ take k (drop i (tr_deck w)) ∧
  length (cards r.2) = length (cards w) ∧
  (∀ c, c ∉ take k (drop i (tr_deck w)) →
     card_region (cards r.2 !!! c) = card_region (cards w !!! c)) ∧
  (∀ j e c, i ≤ j < i + k → cfg !! j = Some e → tr_deck w !! j = Some c →
     card_region (cards r.2 !!! c) = entry_region e).
Proof.
  revert i w. induction k as [|k IH]; intros i w Hk Hi Hwf; cbv zeta.
  - simpl. rewrite decide_True by lia. rewrite app_nil_r.
    repeat split; try done. intros; lia.
  - destruct (lookup_lt_is_Some_2 cfg i ltac:(lia)) as [e He].
    destruct (update_keeps_layout i w) as (Hud & Hus & Hul & Hur).
    cbn [seq for_each]. rewrite (deal_card_place _ _ _ _ He), Hud.
    destruct (tr_deck w !! i) as [c|] eqn:Ec.
    + set (w1 := place_entry (update i w) (e, c)).
      apply lookup_lt_Some in Ec as Hlt.
      assert (c < length (cards w)) as Hlive.
      { destruct Hwf as [_ Hall]. rewrite Forall_forall in Hall.
        apply Hall, list_elem_of_lookup. eauto. }
      assert (tr_deck w1 = tr_deck w) as Hd1 by done.
      assert (tr_sprd w1 = tr_sprd w ++ [c]) as Hs1
        by (simpl; by rewrite Hus).
      assert (length (cards w1) = length (cards w)) as Hl1
        by (simpl; by rewrite length_alter).
      assert (card_region (cards w1 !!! c) = entry_region e) as Hr1.
      { simpl. rewrite list_lookup_total_alter, decide_True
          by (split; [done|lia]).
        apply card_region_set_coords. }
      assert (∀ c', c' ≠ c →
                card_region (cards w1 !!! c') = card_region (cards w !!! c'))
        as Hr1'.
      { intros c' Hne. simpl.
        rewrite list_lookup_total_alter_ne by (intros ->; by apply Hne).
        apply Hur. }
      assert (c ∉ take k (drop (S i) (tr_deck w))) as Hfresh.
      { intros Hin%elem_of_take. destruct Hin as (m & Hm & _).
        rewrite lookup_drop in Hm. destruct Hwf as [Hnd _].
        pose proof (NoDup_lookup _ _ _ _ Hnd Ec Hm). lia. }
      destruct (IH (S i) w1) as (Ho & Hd & Hs & Hl & Hother & Hreg).
      { lia. }
      { rewrite Hd1. lia. }
      { rewrite Hd1. by eapply deck_wf_store. }
      rewrite Hd1 in Ho, Hd, Hs, Hother, Hreg.
      rewrite (drop_S _ _ _ Ec). cbn [take].
      split; [|split; [done|split; [|split; [by rewrite Hl|split]]]].
      * rewrite Ho.
        destruct (decide (S i + k ≤ length (tr_deck w))),
                 (decide (i + S k ≤ length (tr_deck w))); try done; lia.
      * by rewrite Hs, Hs1, <- app_assoc.
      * intros c' [Hne Hc']%not_elem_of_cons.
        by rewrite Hother, Hr1'.
      * intros j e' c' Hj He' Hc'.
        destruct (decide (j = i)) as [->|Hne].
        -- simplify_eq. by rewrite Hother.
        -- apply (Hreg j); [lia|done..].
    + apply lookup_ge_None in Ec. simpl.
      rewrite decide_False by lia. rewrite drop_ge, take_nil, app_nil_r by lia.
      repeat split; try done.
      intros j e' c' Hj _ Hc'%lookup_lt_Some. lia.
Qed.

(** What a deal leaves behind when the callbacks run meanwhile leave
    the layout alone, whether it completes or runs out of cards. *)
Lemma show_spread_during_state w cfg :
  SPREAD_DEFN !! strv_sprd w = Some cfg →
  deck_wf (cards w) (tr_deck w) →
  let r := show_spread_during update w in
  r.1 = (if decide (length cfg ≤ length (tr_deck w)) then Done
         else Raised IndexError) ∧
  tr_deck r.2 = tr_deck w ∧
  tr_sprd r.2 = tr_sprd w ++ take (length cfg) (tr_deck w) ∧
  length (cards r.2) = length (cards w) ∧
  (∀ i e c, cfg !! i = Some e → tr_deck w !! i = Some c →
     card_region (cards r.2 !!! c) = entry_region e).
Proof.
  intros Hcfg Hwf. unfold show_spread_during. rewrite Hcfg.
  destruct (deal_during_loop cfg (length cfg) 0
              (with_sprd_name (strv_sprd w) w))
    as (Ho & Hd & Hs & Hl & _ & Hreg); [simpl; lia..|done|].
  simpl in Ho, Hd, Hs, Hl, Hreg. rewrite drop_0 in Hs.
  destruct (for_each _ _ _) as [[|e] w']; simpl in *.
  - repeat split; try done. intros i e c He Hc.
    apply (Hreg i); [|done..]. apply lookup_lt_Some in He. lia.
  - repeat split; try done. intros i e' c He Hc.
    apply (Hreg i); [|done..]. apply lookup_lt_Some in He. lia.
Qed.
End deal_during.

(** C5 (as the code has it). A first deal (the spread holds no
    placement yet) from a well-formed deck that holds at least as many
    cards as the chosen spread definition has entries, during which
    the callbacks Tk runs at [update()] leave the deck, the spread and
    the regions alone (none at all, or clicks, notes, queries, the
    choice of another spread), completes and leaves the deck as it
    was. The spread then has one placement per entry; placement [i]
    references the card at deck index [i]; and that card carries, for
    entry [i] = (col, row, label), the region with origin (col *
    cellWidth + cellPad, row * cellHeight + cellPad) and far corner
    origin + (cellWidth - 2 cellPad, cellHeight - 2 cellPad). *)
Theorem show_spread_first_deal update w cfg :
  (∀ i, keeps_layout (update i)) →
  SPREAD_DEFN !! strv_sprd w = Some cfg →
  deck_wf (cards w) (tr_deck w) →
  length cfg ≤ length (tr_deck w) →
  tr_sprd w = [] →
  ∃ w',
    show_spread_during update w = (Done, w') ∧
    tr_deck w' = tr_deck w ∧
    length (tr_sprd w') = length cfg ∧
    ∀ i col row label c,
      cfg !! i = Some (col, row, label) → tr_deck w !! i = Some c →
      tr_sprd w' !! i = Some c ∧
      ∃ max_x max_y,
        min_coord (cards w' !!! c)
        = (Some (col * CELL_W + CELL_PAD)%Q,
           Some (row * CELL_H + CELL_PAD)%Q) ∧
        max_coord (cards w' !!! c) = (Some max_x, Some max_y) ∧
        (max_x == (col * CELL_W + CELL_PAD) + (CELL_W - 2 * CELL_PAD))%Q ∧
        (max_y == (row * CELL_H + CELL_PAD) + (CELL_H - 2 * CELL_PAD))%Q.
Proof.
  intros Hupd Hcfg Hwf Hlen Hempty.
  destruct (show_spread_during_state update Hupd w cfg Hcfg Hwf)
    as (Ho & Hd & Hs & _ & Hreg).
  rewrite decide_True in Ho by done. rewrite Hempty in Hs. simpl in Hs.
  destruct (show_spread_during update w) as [o w']. simpl in *. subst o.
  exists w'. split; [done|]. split; [done|]. split.
  - rewrite Hs, length_take. lia.
  - intros i col row label c He Hc. split.
    + apply lookup_lt_Some in He as Hi.
      by rewrite Hs, lookup_take, decide_True by done.
    + specialize (Hreg i _ c He Hc). unfold card_region in Hreg.
      destruct (entry_region_corners col row label) as (mx & my & E & Hx & Hy).
      rewrite E in Hreg. injection Hreg as Hmin Hmax.
      exists mx, my. by rewrite Hmin, Hmax.
Qed.

(** A first deal of the three-card spread from the six cards, with a
    click on the canvas at every [update()]. *)
Lemma show_spread_first_deal_witness :
  ∃ w',
    show_spread_during click_at_every_update six_session = (Done, w') ∧
    tr_sprd w' !! 1 = Some 1 ∧
    min_coord (cards w' !!! 1)
    = (Some ((3#2) * CELL_W + CELL_PAD)%Q, Some ((3#2) * CELL_H + CELL_PAD)%Q).
Proof.
  destruct (show_spread_first_deal click_at_every_update six_session
              three_card_cfg)
    as (w' & Hrun & _ & _ & Hreg).
  - intros i. apply on_click_keeps_layout.
  - by vm_compute.
  - by_compute.
  - vm_compute. lia.
  - by vm_compute.
  - exists w'. split; [done|].
    destruct (Hreg 1 (3#2)%Q (3#2)%Q "2. Present" 1 eq_refl eq_refl)
      as (Hsp & mx & my & Hmin & _).
    split; [exact Hsp|exact Hmin].
Defined.

(** C5, as stated, fails, in two ways. First, what Tk dispatches at
    an [update()] of the loop acts between two placements. A press on
    Deal Cards at the second [update()] of a first deal runs a whole
    deal there: placement 1 is the card at deck index 0. A press on
    Shuffle at the same point reorders the deck: placement 1 is the
    card that was at deck index 2 before the deal, and the card of
    placement 0 is dealt again as placement 2. Second, a later deal
    appends to the placements of the earlier one (the defect of C9):
    after a deal, a shuffle and a deal, placement 0 is still the card
    dealt first, not the card now at deck index 0, and it carries the
    region of entry 2. *)
Lemma deal_not_lockstep :
  let r_deal := show_spread_during deal_at_second_update six_session in
  let r_shfl := show_spread_during shuffle_at_second_update asked_session in
  let w1 := (show_spread asked_session).2 in
  let w2 := (@popup_shuffle lcg_source "2021-04-07 12:18:00" w1).2 in
  let r2 := show_spread w2 in
  SPREAD_DEFN !! strv_sprd six_session = Some three_card_cfg ∧
  tr_sprd six_session = [] ∧ tr_deck six_session = [0; 1; 2; 3; 4; 5] ∧
  r_deal.1 = Done ∧ tr_sprd r_deal.2 = [0; 0; 1; 2; 1; 2] ∧
  tr_sprd r_deal.2 !! 1 ≠ tr_deck six_session !! 1 ∧
  SPREAD_DEFN !! strv_sprd asked_session = Some three_card_cfg ∧
  tr_sprd asked_session = [] ∧ tr_deck asked_session = [0; 1; 2; 3; 4; 5] ∧
  r_shfl.1 = Done ∧ tr_sprd r_shfl.2 = [0; 2; 0] ∧
  tr_sprd r_shfl.2 !! 1 ≠ tr_deck asked_session !! 1 ∧
  tr_sprd w1 = [0; 1; 2] ∧ tr_deck w2 = [4; 2; 0; 5; 3; 1] ∧
  r2.1 = Done ∧ tr_sprd r2.2 = [0; 1; 2; 4; 2; 0] ∧
  tr_sprd r2.2 !! 0 ≠ tr_deck w2 !! 0 ∧
  min_coord (cards r2.2 !!! 0)
  = (Some (3 * CELL_W + CELL_PAD)%Q, Some ((3#2) * CELL_H + CELL_PAD)%Q).
Proof. cbv zeta. repeat split; try (vm_compute; reflexivity); by vm_compute. Qed.

(** ** One popup per click after a first deal *)

(** X12. After a first deal (the spread was empty before it) from a
    well-formed deck, during which the callbacks Tk runs at
    [update()] leave the deck, the spread and the regions alone (none
    at all, or clicks, notes, queries, the choice of another spread;
    not a shuffle, not another deal), and whether the deal completed
    or ran out of cards, the regions of the cards dealt do not
    overlap: a click completes and opens at most one note popup. The
    assumption written in [on_click] holds in that case. *)
Theorem first_deal_single_hit x y update w :
  (∀ i, keeps_layout (update i)) →
  tr_sprd w = [] →
  deck_wf (cards w) (tr_deck w) →
  strv_sprd w ∈ SPREAD_OPTION →
  let dealt := (show_spread_during update w).2 in
  ∃ w',
    on_click x y dealt = (Done, w') ∧
    length (note_popups w') ≤ length (note_popups dealt) + 1.
Proof.
  intros Hupd Hempty Hwf Hopt dealt.
  destruct (catalogue_lookup _ Hopt) as (cfg & Hcfg & _).
  pose proof (catalogue_disjoint _ _ Hopt Hcfg) as Hdis.
  destruct (show_spread_during_state update Hupd w cfg Hcfg Hwf)
    as (_ & _ & Hsp & _ & Hreg).
  fold dealt in Hsp, Hreg. rewrite Hempty in Hsp. simpl in Hsp.
  assert (∀ i c, tr_sprd dealt !! i = Some c →
            ∃ e, cfg !! i = Some e ∧
                 card_region (cards dealt !!! c) = entry_region e) as Hent.
  { intros i c Hc. rewrite Hsp, lookup_take in Hc.
    case_decide as Hi; [|done].
    destruct (lookup_lt_is_Some_2 cfg i Hi) as [e He]. eauto. }
  assert (spread_placed dealt) as Hpl.
  { unfold spread_placed. apply Forall_lookup. intros i c Hc.
    destruct (Hent i c Hc) as (e & _ & Hr). by eapply card_region_placed. }
  rewrite on_click_result by done. eexists. split; [reflexivity|].
  assert (∀ i, i ∈ hits x y dealt →
            ∃ e, cfg !! i = Some e ∧ in_box x y (entry_box e)) as Hbox.
  { intros i (c & Hc & Hin)%hits_elem.
    destruct (Hent i c Hc) as (e & He & Hr). exists e. split; [done|].
    unfold card_region in Hr.
    eapply region_contains_box; [| |exact Hin]; by rewrite <- Hr. }
  assert (length (hits x y dealt) ≤ 1) as Hlen.
  { apply length_le_1.
    - unfold hits. apply NoDup_filter, NoDup_seq.
    - intros i j (e1 & He1 & Hb1)%Hbox (e2 & He2 & Hb2)%Hbox.
      destruct (Nat.lt_trichotomy i j) as [Hlt|[->|Hlt]]; [|done|];
        exfalso.
      + eapply boxes_disjoint_sound; [|exact Hb1|exact Hb2].
        by eapply pairwise_disjoint_sound.
      + eapply boxes_disjoint_sound; [|exact Hb2|exact Hb1].
        by eapply pairwise_disjoint_sound. }
  unfold click_result.
  destruct (last (hits x y dealt)); simpl; rewrite ?length_app; lia.
Qed.

(** A click after a first deal of the three-card spread during which
    the canvas was clicked at every [update()]. *)
Lemma first_deal_single_hit_witness :
  let dealt := (show_spread_during click_at_every_update six_session).2 in
  ∃ w',
    on_click 100 300 dealt = (Done, w') ∧
    length (note_popups w') ≤ length (note_popups dealt) + 1.
Proof.
  refine (first_deal_single_hit 100 300 click_at_every_update six_session
            _ _ _ _).
  - intros i. apply on_click_keeps_layout.
  - by vm_compute.
  - by_compute.
  - unfold SPREAD_OPTION. apply elem_of_cons. by left.
Defined.

(** ** The export loop *)

Lemma export_card_row cfg w i e c rows :
  cfg !! i = Some e → tr_deck w !! i = Some c →
  export_card cfg w i rows = (Done, rows ++ [export_row (cards w) e c]).
Proof.
  intros He Hc. unfold export_card. rewrite He, Hc.
  by destruct e as [[col row] label].
Qed.

Lemma export_loop cfg w k i rows :
  i + k ≤ length cfg → i + k ≤ length (tr_deck w) →
  for_each (export_card cfg w) (seq i k) rows
  = (Done,
     rows ++ zip_with (export_row (cards w))
               (take k (drop i cfg)) (take k (drop i (tr_deck w)))).
Proof.
  revert i rows. induction k as [|k IH]; intros i rows Hc Hd.
  - simpl. by rewrite app_nil_r.
  - destruct (lookup_lt_is_Some_2 cfg i ltac:(lia)) as [e He].
    destruct (lookup_lt_is_Some_2 (tr_deck w) i ltac:(lia)) as [c Hcd].
    simpl. rewrite (export_card_row _ _ _ _ _ _ He Hcd), IH by lia.
    rewrite (drop_S _ _ _ He), (drop_S _ _ _ Hcd). simpl.
    by rewrite <- app_assoc.
Qed.

(** X13. The export loop takes its cards from the deck, by position,
    not from the spread. Run in a namespace that binds [sprd_config]
    to a definition no longer than the deck, [prompt_quit] completes
    and writes the header row followed by one row per entry [i]:
    the entry's label and [str] of the card at deck index [i] (its
    name, followed by " Reversed" when it is reversed). *)
Theorem export_loop_rows cfg f_name w :
  f_name ≠ "" →
  length cfg ≤ length (tr_deck w) →
  prompt_quit_in (<["sprd_config" := PyConfig cfg]> module_globals)
    f_name true w
  = (Done,
     Some (header_row w
           :: zip_with (export_row (cards w)) cfg (tr_deck w))).
Proof.
  intros Hname Hlen. unfold prompt_quit_in.
  rewrite bool_decide_eq_false_2 by done.
  rewrite sprd_config_not_local, lookup_insert_eq.
  cbv beta iota zeta delta [negb].
  rewrite (export_loop cfg w (length cfg) 0) by lia.
  rewrite !drop_0, firstn_all.
  replace (zip_with (export_row (cards w)) cfg
             (take (length cfg) (tr_deck w)))
    with (zip_with (export_row (cards w)) cfg (tr_deck w)); [done|].
  clear. revert cfg. induction (tr_deck w) as [|c d IH]; intros [|e cfg];
    simpl; try done. by rewrite <- IH.
Qed.

Lemma export_loop_rows_witness :
  prompt_quit_in
    (<["sprd_config" := PyConfig three_card_cfg]> module_globals)
    "reading.csv" true dealt_session
  = (Done,
     Some (header_row dealt_session
           :: zip_with (export_row (cards dealt_session)) three_card_cfg
                (tr_deck dealt_session))).
Proof.
  refine (export_loop_rows three_card_cfg "reading.csv" dealt_session _ _).
  - done.
  - vm_compute. lia.
Defined.
